(** * Directory synchronisation script: [.github/scripts/compare_dirs.py]

    A shallow embedding of the script and of the library calls it makes
    ([filecmp.dircmp], [os.listdir], [os.path.exists], [os.path.isdir],
    [shutil.rmtree], [os.remove], [shutil.copytree], [shutil.copy2]) over a
    tree model of the two directories, followed by the properties of
    [copytree] and [main].

    The tree model has files, directories and symbolic links.  In it a
    library call raises for a missing path, a path of the wrong kind, an
    existing destination or a dangling link; permissions, special files,
    files with several names, link cycles and failures of the device are
    outside it.  A symbolic link of the model resolves to something of its
    own, outside the two directories: a link that resolves into
    [directory1] or [directory2] is not modelled.  A property whose truth
    depends on where links resolve is therefore stated for directories
    without symbolic links where the script reads, removes or writes
    ([source_link_free], [dest_link_free], [top_plain], [link_free]); the
    other properties hold of links as well, of the listed entries
    themselves.  The script itself is written over any behaviour of the
    library calls, so what is proved of its handling of exceptions and of
    the calls it makes does not depend on the model. *)

From Stdlib Require Import List String Bool Arith Lia.
Import ListNotations.
Open Scope string_scope.
Open Scope list_scope.

Set Warnings "-register-all".

(* ===================================================================== *)
(** * Directory trees *)
(* ===================================================================== *)

(** What can sit under a name.  A file is its contents together with the
    metadata that [shutil.copy2] carries over ([data] stands for both).
    A directory is its listing, in the order [os.listdir] returns it.
    A symbolic link is represented by what it resolves to: [Link t] resolves
    to [t], which lives outside the two trees and is not shared between
    them; [Broken c] is a dangling link, [c] telling whether opening it for
    writing can create its target (the target's parent exists).  Links
    that resolve to an entry of one of the two trees, so that a removal or
    a write under one name shows under another, have no representation
    here. *)
Inductive node : Type :=
| File (data : string)
| Dir (entries : list (string * node))
| Link (target : node)
| Broken (creatable : bool).

Abbreviation listing := (list (string * node)).

Section node_induction.
Variable P : node -> Prop.
Hypothesis P_File : forall data, P (File data).
Hypothesis P_Dir : forall es, Forall (fun kv => P (snd kv)) es -> P (Dir es).
Hypothesis P_Link : forall t, P t -> P (Link t).
Hypothesis P_Broken : forall c, P (Broken c).

Fixpoint node_ind' (n : node) : P n :=
    match n with
    | File data => P_File data
    | Dir es =>
        P_Dir es
          ((fix go (l : listing) : Forall (fun kv => P (snd kv)) l :=
              match l with
              | [] => Forall_nil _
              | kv :: l' => Forall_cons kv (node_ind' (snd kv)) (go l')
              end) es)
    | Link t => P_Link t (node_ind' t)
    | Broken c => P_Broken c
    end.
End node_induction.

Definition names (es : listing) : list string := map fst es.

Fixpoint lookup (k : string) (es : listing) : option node :=
  match es with
  | [] => None
  | (k', v) :: es' => if k' =? k then Some v else lookup k es'
  end.

Definition delete (k : string) (es : listing) : listing :=
  filter (fun kv => negb (fst kv =? k)) es.

Definition alter (k : string) (g : node -> node) (es : listing) : listing :=
  map (fun kv => if fst kv =? k then (fst kv, g (snd kv)) else kv) es.

(** A new name goes to the end of the listing: one of the orders in which
    [os.listdir] may then return the names, which is the file system's.
    The script depends on the order only through the order of its calls;
    what a run leaves is stated name by name, with [lookup]. *)
Definition insert (k : string) (v : node) (es : listing) : listing :=
  es ++ [(k, v)].

(** Resolution of symbolic links, as [stat] does it. *)
Fixpoint follow (n : node) : option node :=
  match n with
  | Link t => follow t
  | Broken _ => None
  | _ => Some n
  end.

(** [walk n q]: the node reached from [n] along the components [q]; links
    met on the way are followed, the last component is not ([lstat]). *)
Fixpoint walk (n : node) (q : list string) : option node :=
  match q with
  | [] => Some n
  | k :: q' =>
      match follow n with
      | Some (Dir es) =>
          match lookup k es with
          | Some c => walk c q'
          | None => None
          end
      | _ => None
      end
  end.

(** Apply [f] to the listing of the directory that [n] is or resolves to. *)
Fixpoint on_listing (f : listing -> listing) (n : node) : node :=
  match n with
  | Dir es => Dir (f es)
  | Link t => Link (on_listing f t)
  | _ => n
  end.

(** Apply [f] to the listing of the directory reached from [n] along [q]. *)
Fixpoint modify (q : list string) (f : listing -> listing) (n : node) : node :=
  match q with
  | [] => on_listing f n
  | k :: q' => on_listing (alter k (modify q' f)) n
  end.

(** Names are distinct in every listing that can be reached. *)
Fixpoint nodupb (l : list string) : bool :=
  match l with
  | [] => true
  | k :: l' => negb (existsb (String.eqb k) l') && nodupb l'
  end.

Fixpoint wf (n : node) : bool :=
  match n with
  | Dir es =>
      nodupb (map fst es) &&
      (fix all (l : listing) : bool :=
         match l with
         | [] => true
         | kv :: l' => wf (snd kv) && all l'
         end) es
  | Link t => wf t
  | _ => true
  end.

Definition wf_listing (es : listing) : bool := wf (Dir es).

(* ===================================================================== *)
(** * The state the script runs in *)
(* ===================================================================== *)

(** The two fixed relative paths of [main]; a path is one of them followed
    by components. *)
Inductive root : Type := Directory1 | Directory2.

Definition path : Type := root * list string.

(** [None]: the path does not exist. *)
Record fs : Type := mkfs {
  directory1 : option node;
  directory2 : option node;
  stdout : list string
}.

Definition get (r : root) (s : fs) : option node :=
  match r with
  | Directory1 => directory1 s
  | Directory2 => directory2 s
  end.

Definition put (r : root) (v : option node) (s : fs) : fs :=
  match r with
  | Directory1 => mkfs v (directory2 s) (stdout s)
  | Directory2 => mkfs (directory1 s) v (stdout s)
  end.

Definition bind_opt {A B} (o : option A) (f : A -> option B) : option B :=
  match o with
  | Some a => f a
  | None => None
  end.

Definition lstat (p : path) (s : fs) : option node :=
  bind_opt (get (fst p) s) (fun n => walk n (snd p)).

Definition stat (p : path) (s : fs) : option node :=
  bind_opt (lstat p s) follow.

Definition os_path_join (p : path) (item : string) : path :=
  (fst p, snd p ++ [item]).

Definition dirname (p : path) : path := (fst p, removelast (snd p)).

Definition basename (p : path) : string := last (snd p) "".

Definition modify_at (p : path) (f : listing -> listing) (s : fs) : fs :=
  put (fst p) (option_map (modify (snd p) f) (get (fst p) s)) s.

(** Remove the entry at [p] from its parent's listing. *)
Definition unlink (p : path) (s : fs) : fs :=
  match snd p with
  | [] => put (fst p) None s
  | _ => modify_at (dirname p) (delete (basename p)) s
  end.

(* ===================================================================== *)
(** * Exceptions, runs and the monad of the script *)
(* ===================================================================== *)

(** The exceptions the library calls raise in this model; [ShutilError] is
    [shutil.Error], raised by [shutil.copytree] after it has gone through a
    whole directory and collected the failures. *)
Inductive exn : Type :=
| FileNotFoundError
| NotADirectoryError
| IsADirectoryError
| FileExistsError
| OSError
| ShutilError.

Inductive result (A : Type) : Type :=
| Ok (a : A)
| Raise (e : exn).
Arguments Ok {A} a.
Arguments Raise {A} e.

(** The library calls written in the script. *)
Inductive call : Type :=
| Cdircmp_left_only (a b : path)
| Cprint (msg : string)
| Clistdir (p : path)
| Cexists (p : path)
| Cisdir (p : path)
| Crmtree (p : path)
| Cremove (p : path)
| Ccopytree (s d : path)
| Ccopy2 (s d : path).

(** One call with the exception it raised, if any. *)
Definition event : Type := call * option exn.

Definition raised {A} (r : result A) : option exn :=
  match r with
  | Ok _ => None
  | Raise e => Some e
  end.

(** A run: how it ended, the state it left, the calls it made in order. *)
Record run (A : Type) : Type := mkrun {
  outcome : result A;
  final : fs;
  trace : list event
}.
Arguments mkrun {A} outcome final trace.
Arguments outcome {A} r.
Arguments final {A} r.
Arguments trace {A} r.

Definition M (A : Type) : Type := fs -> run A.

Definition ret {A} (a : A) : M A := fun s => mkrun (Ok a) s [].

(** Sequencing: an exception ends the run where it is raised. *)
Definition bind {A B} (m : M A) (f : A -> M B) : M B :=
  fun s =>
    let r := m s in
    match outcome r with
    | Ok a =>
        let r' := f a (final r) in
        mkrun (outcome r') (final r') (trace r ++ trace r')
    | Raise e => mkrun (Raise e) (final r) (trace r)
    end.

Notation "x <- m ;; k" := (bind m (fun x => k))
  (at level 61, m at next level, right associativity).
Notation "m ;;; k" := (bind m (fun _ => k))
  (at level 61, right associativity).

(** [for x in xs: body]. *)
Fixpoint for_each {X} (xs : list X) (body : X -> M unit) : M unit :=
  match xs with
  | [] => ret tt
  | x :: xs' => body x ;;; for_each xs' body
  end.

(** A library call: what it does to the state, recorded as one event. *)
Definition library {A} (c : call) (f : fs -> result A * fs) : M A :=
  fun s => mkrun (fst (f s)) (snd (f s)) [(c, raised (fst (f s)))].

(* ===================================================================== *)
(** * The library calls *)
(* ===================================================================== *)

Definition is_dir (o : option node) : bool :=
  match o with
  | Some (Dir _) => true
  | _ => false
  end.

Definition is_some {A} (o : option A) : bool :=
  match o with
  | Some _ => true
  | None => false
  end.

(** [os.listdir(p)]. *)
Definition listdir (p : path) (s : fs) : result (list string) * fs :=
  match stat p s with
  | Some (Dir es) => (Ok (names es), s)
  | Some _ => (Raise NotADirectoryError, s)
  | None => (Raise FileNotFoundError, s)
  end.

(** [os.path.exists(p)] and [os.path.isdir(p)] follow links and never
    raise. *)
Definition path_exists (p : path) (s : fs) : result bool * fs :=
  (Ok (is_some (stat p s)), s).

Definition path_isdir (p : path) (s : fs) : result bool * fs :=
  (Ok (is_dir (stat p s)), s).

(** [print(msg)]. *)
Definition print_line (msg : string) (s : fs) : result unit * fs :=
  (Ok tt, mkfs (directory1 s) (directory2 s) (stdout s ++ [msg])).

(** [filecmp.DEFAULT_IGNORES], after the two names [dircmp] always hides
    ([os.curdir], [os.pardir]). *)
Definition dircmp_hide : list string := ["."; ".."].

Definition DEFAULT_IGNORES : list string :=
  ["RCS"; "CVS"; "tags"; ".git"; ".hg"; ".bzr"; "_darcs"; "__pycache__"].

Definition mem (k : string) (l : list string) : bool :=
  existsb (String.eqb k) l.

(** [filecmp._filter(flist, skip)]. *)
Definition dircmp_filter (flist skip : list string) : list string :=
  filter (fun k => negb (mem k skip)) flist.

(** [filecmp.dircmp(a, b).left_only], with [ignore] and [hide] left to
    their defaults: both directories are listed, the skipped names are
    dropped from each list, and the names of the left list that are not in
    the right one are kept.  The lists are sorted there; [main] only tests
    the result for emptiness, so the listing order is kept here. *)
Definition dircmp_left_only (a b : path) (s : fs)
  : result (list string) * fs :=
  match fst (listdir a s) with
  | Raise e => (Raise e, s)
  | Ok la =>
      match fst (listdir b s) with
      | Raise e => (Raise e, s)
      | Ok lb =>
          let left_list := dircmp_filter la (dircmp_hide ++ DEFAULT_IGNORES) in
          let right_list := dircmp_filter lb (dircmp_hide ++ DEFAULT_IGNORES) in
          (Ok (filter (fun k => negb (mem k right_list)) left_list), s)
      end
  end.

(** [shutil.rmtree(p)]: refuses a symbolic link; a directory goes with all
    that is below it. *)
Definition rmtree (p : path) (s : fs) : result unit * fs :=
  match lstat p s with
  | Some (Dir _) => (Ok tt, unlink p s)
  | Some (Link _) | Some (Broken _) => (Raise OSError, s)
  | Some (File _) => (Raise NotADirectoryError, s)
  | None => (Raise FileNotFoundError, s)
  end.

(** [os.remove(p)]: unlinks a file or a symbolic link (the link itself). *)
Definition remove (p : path) (s : fs) : result unit * fs :=
  match lstat p s with
  | Some (Dir _) => (Raise IsADirectoryError, s)
  | Some _ => (Ok tt, unlink p s)
  | None => (Raise FileNotFoundError, s)
  end.

(** What [shutil.copytree(..., symlinks=False, ignore=None)] creates for a
    source node, and how many failures it collects on the way: links are
    followed, a dangling link is a failure of [copy2] that is recorded and
    leaves nothing, a directory is created even when copies below it
    fail.  No name is excluded. *)
Fixpoint copied (n : node) : option node * nat :=
  match n with
  | File data => (Some (File data), 0)
  | Dir es =>
      let r :=
        (fix go (l : listing) : listing * nat :=
           match l with
           | [] => ([], 0)
           | kv :: l' =>
               let c := copied (snd kv) in
               let r' := go l' in
               (match fst c with
                | Some v => (fst kv, v) :: fst r'
                | None => fst r'
                end, snd c + snd r')
           end) es in
      (Some (Dir (fst r)), snd r)
  | Link t => copied t
  | Broken _ => (None, 1)
  end.

(** The same for the entries of a directory, in listing order. *)
Definition copied_entries (es : listing) : listing * nat :=
  fold_right
    (fun kv r' =>
       let c := copied (snd kv) in
       (match fst c with
        | Some v => (fst kv, v) :: fst r'
        | None => fst r'
        end, snd c + snd r'))
    ([], 0) es.

(** [shutil.copytree(src, dst, symlinks=False, ignore=None)]: [src] is
    listed, [dst] is made ([os.makedirs] without [exist_ok]: any existing
    [dst], a dangling link included, is [FileExistsError]), the entries are
    copied, and [shutil.Error] is raised at the end when some copy failed,
    the rest staying in place.  [dst] is made below an existing directory:
    [main] only copies to children of the directory it has listed. *)
Definition sh_copytree (src dst : path) (s : fs) : result unit * fs :=
  match stat src s with
  | Some (Dir es) =>
      match lstat dst s with
      | Some _ => (Raise FileExistsError, s)
      | None =>
          match stat (dirname dst) s with
          | Some (Dir _) =>
              let c := copied_entries es in
              (match snd c with
               | 0 => Ok tt
               | _ => Raise ShutilError
               end,
               modify_at (dirname dst) (insert (basename dst) (Dir (fst c))) s)
          | Some _ => (Raise NotADirectoryError, s)
          | None => (Raise FileNotFoundError, s)
          end
      end
  | Some _ => (Raise NotADirectoryError, s)
  | None => (Raise FileNotFoundError, s)
  end.

(** [open(dst, 'wb')] on an existing name, and the write of [data]: a file
    is truncated and rewritten, a link is written through, a dangling link
    has its target created when that is possible.  The write through a
    link changes what the link resolves to, which the model keeps with the
    link: where [directory2] holds no link at the path written,
    ([dest_link_free]), only the first case occurs. *)
Fixpoint open_wb (data : string) (v : node) : result node :=
  match v with
  | File _ => Ok (File data)
  | Dir _ => Raise IsADirectoryError
  | Link t =>
      match open_wb data t with
      | Ok t' => Ok (Link t')
      | Raise e => Raise e
      end
  | Broken true => Ok (Link (File data))
  | Broken false => Raise FileNotFoundError
  end.

(** [open(dst, 'wb')] and the write of [data]: an existing name goes
    through [open_wb], a new one is created in its directory. *)
Definition write (data : string) (dst : path) (s : fs) : result unit * fs :=
  match lstat dst s with
  | Some v =>
      match open_wb data v with
      | Ok v' =>
          (Ok tt,
           modify_at (dirname dst) (alter (basename dst) (fun _ => v')) s)
      | Raise e => (Raise e, s)
      end
  | None =>
      match stat (dirname dst) s with
      | Some (Dir _) =>
          (Ok tt,
           modify_at (dirname dst) (insert (basename dst) (File data)) s)
      | Some _ => (Raise NotADirectoryError, s)
      | None => (Raise FileNotFoundError, s)
      end
  end.

(** [shutil.copy2(src, dst)]: when [dst] is a directory the file goes
    inside it under the source's base name; the source is opened for
    reading, then the destination for writing. *)
Definition copy2 (src dst : path) (s : fs) : result unit * fs :=
  let dst := if is_dir (stat dst s) then os_path_join dst (basename src)
             else dst in
  match stat src s with
  | Some (File data) => write data dst s
  | Some _ => (Raise IsADirectoryError, s)
  | None => (Raise FileNotFoundError, s)
  end.

(* ===================================================================== *)
(** * The script *)
(* ===================================================================== *)

(** What each library call of the script does to the state and what it
    returns or raises. *)
Record library_impl : Type := {
  i_dircmp_left_only : path -> path -> fs -> result (list string) * fs;
  i_print : string -> fs -> result unit * fs;
  i_listdir : path -> fs -> result (list string) * fs;
  i_exists : path -> fs -> result bool * fs;
  i_isdir : path -> fs -> result bool * fs;
  i_rmtree : path -> fs -> result unit * fs;
  i_remove : path -> fs -> result unit * fs;
  i_copytree : path -> path -> fs -> result unit * fs;
  i_copy2 : path -> path -> fs -> result unit * fs
}.

(** The library as described above. *)
Definition model : library_impl := {|
  i_dircmp_left_only := dircmp_left_only;
  i_print := print_line;
  i_listdir := listdir;
  i_exists := path_exists;
  i_isdir := path_isdir;
  i_rmtree := rmtree;
  i_remove := remove;
  i_copytree := sh_copytree;
  i_copy2 := copy2
|}.

Definition specific : string := "specific".

Definition dir1 : path := (Directory1, []).
Definition dir2 : path := (Directory2, []).

Definition identical_message : string :=
  "Directories are identical. No action needed.".

Section script.

(** The script is written over the library it runs on. *)
Variable lib : library_impl.

Definition filecmp_dircmp_left_only (a b : path) : M (list string) :=
  library (Cdircmp_left_only a b) (i_dircmp_left_only lib a b).

Definition print (msg : string) : M unit :=
  library (Cprint msg) (i_print lib msg).

Definition os_listdir (p : path) : M (list string) :=
  library (Clistdir p) (i_listdir lib p).

Definition os_path_exists (p : path) : M bool :=
  library (Cexists p) (i_exists lib p).

Definition os_path_isdir (p : path) : M bool :=
  library (Cisdir p) (i_isdir lib p).

Definition shutil_rmtree (p : path) : M unit :=
  library (Crmtree p) (i_rmtree lib p).

Definition os_remove (p : path) : M unit :=
  library (Cremove p) (i_remove lib p).

(** [shutil.copytree(s, d, symlinks, ignore)], the two last arguments
    being the defaults [False] and [None] of the script's [copytree]. *)
Definition shutil_copytree (src dst : path) : M unit :=
  library (Ccopytree src dst) (i_copytree lib src dst).

Definition shutil_copy2 (src dst : path) : M unit :=
  library (Ccopy2 src dst) (i_copy2 lib src dst).

(** The body of the loop of [copytree]. *)
Definition copy_item (src dst : path) (item : string) : M unit :=
  let s := os_path_join src item in
  let d := os_path_join dst item in
  isdir <- os_path_isdir s ;;
  if isdir then
    if negb (item =? specific) then shutil_copytree s d
    else ret tt
  else shutil_copy2 s d.

(** [copytree(src, dst, symlinks=False, ignore=None)] of the script. *)
Definition copytree (src dst : path) : M unit :=
  items <- os_listdir src ;;
  for_each items (copy_item src dst).

(** The body of the loop that clears [directory2]. *)
Definition clear_item (item : string) : M unit :=
  let s := os_path_join dir2 item in
  if negb (item =? specific) then
    present <- os_path_exists s ;;
    if present then
      isdir <- os_path_isdir s ;;
      if isdir then shutil_rmtree s else os_remove s
    else ret tt
  else ret tt.

(** The loop that clears [directory2]. *)
Definition clear_directory2 : M unit :=
  items <- os_listdir dir2 ;;
  for_each items clear_item.

(** [main()]. *)
Definition main : M unit :=
  left_only <- filecmp_dircmp_left_only dir1 dir2 ;;
  match left_only with
  | [] => print identical_message
  | _ => clear_directory2 ;;; copytree dir1 dir2
  end.

End script.

(* ===================================================================== *)
(** * The script as a function on the two listings *)
(* ===================================================================== *)

(** The state in which both paths are directories. *)
Definition st (src dst : listing) (out : list string) : fs :=
  mkfs (Some (Dir src)) (Some (Dir dst)) out.

(** A loop whose body is a function on the destination listing. *)
Fixpoint steps {X} (step : X -> listing -> result unit * listing)
    (xs : list X) (es : listing) : result unit * listing :=
  match xs with
  | [] => (Ok tt, es)
  | x :: xs' =>
      match step x es with
      | (Ok _, es') => steps step xs' es'
      | (Raise e, es') => (Raise e, es')
      end
  end.

(** [clear_item] on the listing of [directory2]. *)
Definition clear_step (k : string) (es : listing) : result unit * listing :=
  if k =? specific then (Ok tt, es)
  else
    match lookup k es with
    | Some (Dir _) | Some (File _) => (Ok tt, delete k es)
    | Some (Link t) =>
        match follow t with
        | Some (Dir _) => (Raise OSError, es)
        | Some _ => (Ok tt, delete k es)
        | None => (Ok tt, es)
        end
    | Some (Broken _) | None => (Ok tt, es)
    end.

(** What [write] does to the listing [l] that holds the name [k]. *)
Definition write_fn (data : string) (k : string) (l : listing)
  : result (listing -> listing) :=
  match lookup k l with
  | Some v =>
      match open_wb data v with
      | Ok v' => Ok (alter k (fun _ => v'))
      | Raise e => Raise e
      end
  | None => Ok (insert k (File data))
  end.

(** The body of the loop of [copytree], from the listing [src], on the
    listing of [directory2]. *)
Definition copy_step (src : listing) (k : string) (es : listing)
  : result unit * listing :=
  match bind_opt (lookup k src) follow with
  | Some (Dir sub) =>
      if k =? specific then (Ok tt, es)
      else
        match lookup k es with
        | Some _ => (Raise FileExistsError, es)
        | None =>
            (match snd (copied_entries sub) with
             | 0 => Ok tt
             | _ => Raise ShutilError
             end, insert k (Dir (fst (copied_entries sub))) es)
        end
  | Some (File data) =>
      match bind_opt (lookup k es) follow with
      | Some (Dir inner) =>
          match write_fn data k inner with
          | Ok f => (Ok tt, alter k (on_listing f) es)
          | Raise e => (Raise e, es)
          end
      | _ =>
          match write_fn data k es with
          | Ok f => (Ok tt, f es)
          | Raise e => (Raise e, es)
          end
      end
  | Some _ => (Raise IsADirectoryError, es)
  | None => (Raise FileNotFoundError, es)
  end.

Definition skipped : list string := dircmp_hide ++ DEFAULT_IGNORES.

(** The value of [left_only] computed by [main]. *)
Definition left_only_of (src dst : listing) : list string :=
  filter (fun k => negb (mem k (dircmp_filter (names dst) skipped)))
    (dircmp_filter (names src) skipped).

Definition clear_all (dst : listing) : result unit * listing :=
  steps clear_step (names dst) dst.

Definition copy_all (src es : listing) : result unit * listing :=
  steps (copy_step src) (names src) es.

(** [main] on two directories: how it ends and the listing of
    [directory2] it leaves ([main_sync] below). *)
Definition sync (src dst : listing) : result unit * listing :=
  match left_only_of src dst with
  | [] => (Ok tt, dst)
  | _ =>
      match clear_all dst with
      | (Ok _, es) => copy_all src es
      | (Raise e, es) => (Raise e, es)
      end
  end.

(** What [main] adds to the standard output. *)
Definition printed (src dst : listing) : list string :=
  match left_only_of src dst with
  | [] => [identical_message]
  | _ => []
  end.

(* ===================================================================== *)
(** * Notions used in the statements *)
(* ===================================================================== *)

(** What [shutil.copytree] makes of [n], whatever it collects on the way:
    used in the lemmas on the copying loop. *)
Definition resolved (n : node) : option node := fst (copied n).

(** What [shutil.copytree] makes of what is found at the end of [q] from
    [n]. *)
Definition reach (n : node) (q : list string) : option node :=
  bind_opt (walk n q) resolved.

Fixpoint link_free (n : node) : bool :=
  match n with
  | File _ => true
  | Dir es =>
      (fix all (l : listing) : bool :=
         match l with
         | [] => true
         | kv :: l' => link_free (snd kv) && all l'
         end) es
  | Link _ | Broken _ => false
  end.

(** The listing of [directory2] in a state; empty when it is not a
    directory. *)
Definition dest (s : fs) : listing :=
  match directory2 s with
  | Some (Dir es) => es
  | _ => []
  end.

(** No call of the sequence raised. *)
Definition quiet (evs : list event) : Prop :=
  Forall (fun ev => snd ev = None) evs.

(** A run in which nothing was caught: it ends normally after calls that
    all returned, or with the exception of its last call, the only one
    that raised. *)
Definition propagates {A} (r : run A) : Prop :=
  match outcome r with
  | Ok _ => quiet (trace r)
  | Raise e => exists evs c, trace r = evs ++ [(c, Some e)] /\ quiet evs
  end.

(** The run of [main] that only compares and prints. *)
Definition no_op (s : fs) : run unit :=
  mkrun (Ok tt)
    (mkfs (directory1 s) (directory2 s) (stdout s ++ [identical_message]))
    [(Cdircmp_left_only dir1 dir2, None); (Cprint identical_message, None)].

(** A name under which [os.path.exists] finds nothing. *)
Definition dead (es : listing) (k : string) : Prop :=
  bind_opt (lookup k es) follow = None.

(** Does the source hold a file, or a link to one, named [specific]? *)
Definition source_specific_file (src : listing) : bool :=
  match bind_opt (lookup specific src) follow with
  | Some (File _) => true
  | _ => false
  end.


(** The comparison of [main] finds a name: one of the source that is
    neither skipped by [dircmp] nor a name of the destination. *)
Definition source_only (src dst : listing) : Prop :=
  exists k, In k (names src) /\ ~ In k (names dst) /\ mem k skipped = false.

(** A file or a directory, not a link. *)
Definition plain (v : node) : bool :=
  match v with
  | File _ | Dir _ => true
  | Link _ | Broken _ => false
  end.

(** No entry of the listing is a symbolic link. *)
Definition top_plain (es : listing) : bool :=
  forallb (fun kv => plain (snd kv)) es.

(** [directory1] holds no symbolic link where [main] reads it: none among
    its entries, and none below them but in a directory named [specific],
    which [copytree] does not open. *)
Definition source_link_free (src : listing) : bool :=
  forallb (fun kv => plain (snd kv) &&
                     ((fst kv =? specific) || link_free (snd kv))) src.

(** The entry [specific] of the source, if any, is no symbolic link. *)
Definition source_specific_plain (src : listing) : bool :=
  match lookup specific src with
  | Some v => plain v
  | None => true
  end.

(** [directory2] holds no symbolic link where [main] removes or writes by
    name: none among its entries and, when the source holds a file named
    [specific], none at [specific/specific], where [shutil.copy2] writes
    that file if [directory2/specific] is a directory. *)
Definition dest_link_free (src dst : listing) : bool :=
  top_plain dst &&
  (negb (source_specific_file src) ||
   match lookup specific dst with
   | Some (Dir sub) =>
       match lookup specific sub with
       | Some v => plain v
       | None => true
       end
   | _ => true
   end).


(** A removal is of a child of [directory2] that is not [specific]. *)
Definition removal_confined (ev : event) : Prop :=
  match fst ev with
  | Crmtree p | Cremove p =>
      exists item, item <> specific /\ p = os_path_join dir2 item
  | _ => True
  end.

(** A copy is from a child of [directory1] to the child of [directory2]
    of the same name, and [shutil.copytree] is not given [specific]. *)
Definition copy_confined (ev : event) : Prop :=
  match fst ev with
  | Ccopytree a b =>
      exists item, item <> specific /\
                   a = os_path_join dir1 item /\ b = os_path_join dir2 item
  | Ccopy2 a b =>
      exists item, a = os_path_join dir1 item /\ b = os_path_join dir2 item
  | _ => True
  end.

Definition is_removal (ev : event) : bool :=
  match fst ev with
  | Crmtree _ | Cremove _ => true
  | _ => false
  end.

Definition is_copy (ev : event) : bool :=
  match fst ev with
  | Ccopytree _ _ | Ccopy2 _ _ => true
  | _ => false
  end.

(** The source entries [copytree] copies: all but a top-level directory,
    or link to one, named [specific]. *)
Definition copied_at_top (kv : string * node) : bool :=
  negb ((fst kv =? specific) && is_dir (follow (snd kv))).

(** [s'] has the source directory and the standard output of [s]. *)
Definition frame (s s' : fs) : Prop :=
  directory1 s' = directory1 s /\ stdout s' = stdout s.

(* ===================================================================== *)
(** * Runs of sequenced calls *)
(* ===================================================================== *)

Section monad_projections.
Context {A B : Type} (m : M A) (f : A -> M B) (s : fs).

Lemma outcome_bind :
  outcome (bind m f s)
  = match outcome (m s) with
    | Ok a => outcome (f a (final (m s)))
    | Raise e => Raise e
    end.
Proof. unfold bind. destruct (outcome (m s)); reflexivity. Qed.

Lemma final_bind :
  final (bind m f s)
  = match outcome (m s) with
    | Ok a => final (f a (final (m s)))
    | Raise _ => final (m s)
    end.
Proof. unfold bind. destruct (outcome (m s)); reflexivity. Qed.

Lemma trace_bind :
  trace (bind m f s)
  = match outcome (m s) with
    | Ok a => trace (m s) ++ trace (f a (final (m s)))
    | Raise _ => trace (m s)
    end.
Proof. unfold bind. destruct (outcome (m s)); reflexivity. Qed.
End monad_projections.

Lemma outcome_library {A} c (f : fs -> result A * fs) s :
  outcome (library c f s) = fst (f s).
Proof. reflexivity. Qed.

Lemma final_library {A} c (f : fs -> result A * fs) s :
  final (library c f s) = snd (f s).
Proof. reflexivity. Qed.

Ltac lib_simpl :=
  cbn [model i_dircmp_left_only i_print i_listdir i_exists i_isdir i_rmtree
       i_remove i_copytree i_copy2];
  cbv beta iota delta [fst snd path_exists path_isdir print_line].

Ltac run_simpl :=
  repeat (rewrite ?outcome_bind, ?final_bind, ?outcome_library, ?final_library;
          lib_simpl).

(** A loop whose body acts on the listing of [directory2] as [step] does
    is the iteration of [step]. *)
Lemma for_each_steps {X} (body : X -> M unit)
    (step : X -> listing -> result unit * listing) (inj : listing -> fs) :
  (forall x es,
      outcome (body x (inj es)) = fst (step x es) /\
      final (body x (inj es)) = inj (snd (step x es))) ->
  forall xs es,
    outcome (for_each xs body (inj es)) = fst (steps step xs es) /\
    final (for_each xs body (inj es)) = inj (snd (steps step xs es)).
Proof.
  intros Hbody xs. induction xs as [|x xs IH]; intros es; simpl.
  - auto.
  - rewrite outcome_bind, final_bind.
    destruct (Hbody x es) as [Ho Hf]. rewrite Ho, Hf.
    destruct (step x es) as [[[]|e] es']; simpl; auto.
Qed.

(* ===================================================================== *)
(** * Paths below the two directories *)
(* ===================================================================== *)

Lemma follow_not_link n t : follow n <> Some (Link t).
Proof. induction n; simpl; congruence. Qed.

Lemma follow_not_broken n c : follow n <> Some (Broken c).
Proof. induction n; simpl; congruence. Qed.

Lemma follow_on_listing f n es :
  follow n = Some (Dir es) -> follow (on_listing f n) = Some (Dir (f es)).
Proof. induction n; simpl; intros H; try discriminate; auto. congruence. Qed.

Lemma lstat_dir2 k d1 es out :
  lstat (Directory2, [k]) (mkfs d1 (Some (Dir es)) out) = lookup k es.
Proof. unfold lstat; simpl. destruct (lookup k es); reflexivity. Qed.

Lemma stat_dir2 k d1 es out :
  stat (Directory2, [k]) (mkfs d1 (Some (Dir es)) out)
  = bind_opt (lookup k es) follow.
Proof. unfold stat. rewrite lstat_dir2. reflexivity. Qed.

Lemma stat_dir1 k src d2 out :
  stat (Directory1, [k]) (mkfs (Some (Dir src)) d2 out)
  = bind_opt (lookup k src) follow.
Proof. unfold stat, lstat; simpl. destruct (lookup k src); reflexivity. Qed.

Lemma lstat_dir2_in k d1 es out :
  lstat (Directory2, [k; k]) (mkfs d1 (Some (Dir es)) out)
  = match bind_opt (lookup k es) follow with
    | Some (Dir inner) => lookup k inner
    | _ => None
    end.
Proof.
  unfold lstat; simpl. destruct (lookup k es) as [v|]; simpl; auto.
  destruct (follow v) as [[d|inner|t|c]|]; auto.
  destruct (lookup k inner); auto.
Qed.

(** [clear_item] acts on the listing as [clear_step]. *)
Lemma clear_item_step k d1 es out :
  outcome (clear_item model k (mkfs d1 (Some (Dir es)) out)) = fst (clear_step k es) /\
  final (clear_item model k (mkfs d1 (Some (Dir es)) out))
  = mkfs d1 (Some (Dir (snd (clear_step k es)))) out.
Proof.
  unfold clear_item, clear_step.
  change (os_path_join dir2 k) with (Directory2, [k]).
  destruct (k =? specific); [simpl; auto|].
  cbv beta iota delta [negb os_path_exists os_path_isdir shutil_rmtree os_remove].
  run_simpl. rewrite stat_dir2.
  destruct (lookup k es) as [v|] eqn:E; simpl; [|auto].
  destruct (follow v) as [n|] eqn:F; simpl;
    [|destruct v; try discriminate; simpl in *; try rewrite F; auto].
  run_simpl. rewrite stat_dir2, E; simpl; rewrite F.
  destruct n; simpl; unfold rmtree, remove; rewrite lstat_dir2, E.
  all: destruct v; simpl in *; try discriminate; try rewrite F; auto.
Qed.

Lemma write_dir2 data k d1 es out :
  write data (Directory2, [k]) (mkfs d1 (Some (Dir es)) out)
  = match write_fn data k es with
    | Ok f => (Ok tt, mkfs d1 (Some (Dir (f es))) out)
    | Raise e => (Raise e, mkfs d1 (Some (Dir es)) out)
    end.
Proof.
  unfold write, write_fn. rewrite lstat_dir2.
  destruct (lookup k es) as [v|]; simpl.
  - destruct (open_wb data v); reflexivity.
  - reflexivity.
Qed.

Lemma write_dir2_in data k d1 es inner out :
  bind_opt (lookup k es) follow = Some (Dir inner) ->
  write data (Directory2, [k; k]) (mkfs d1 (Some (Dir es)) out)
  = match write_fn data k inner with
    | Ok f => (Ok tt, mkfs d1 (Some (Dir (alter k (on_listing f) es))) out)
    | Raise e => (Raise e, mkfs d1 (Some (Dir es)) out)
    end.
Proof.
  intros H. unfold write, write_fn. rewrite lstat_dir2_in, H.
  change (dirname (Directory2, [k; k])) with (Directory2, [k]).
  rewrite stat_dir2, H.
  destruct (lookup k inner) as [v|]; simpl.
  - destruct (open_wb data v); reflexivity.
  - reflexivity.
Qed.

(** [copy_item] acts on the listing as [copy_step]. *)
Lemma copy_item_step k src es out :
  outcome (copy_item model dir1 dir2 k (st src es out)) = fst (copy_step src k es) /\
  final (copy_item model dir1 dir2 k (st src es out))
  = st src (snd (copy_step src k es)) out.
Proof.
  unfold copy_item, copy_step, st.
  change (os_path_join dir1 k) with (Directory1, [k]).
  change (os_path_join dir2 k) with (Directory2, [k]).
  cbv beta iota delta [os_path_isdir shutil_copytree shutil_copy2].
  run_simpl. rewrite stat_dir1.
  destruct (bind_opt (lookup k src) follow) as [n|] eqn:S1.
  2:{ simpl. run_simpl. unfold copy2. rewrite stat_dir1, S1. auto. }
  destruct n as [data|sub|t|c]; simpl.
  - run_simpl. unfold copy2. rewrite stat_dir1, S1, stat_dir2.
    change (basename (Directory1, [k])) with k.
    change (os_path_join (Directory2, [k]) k) with (Directory2, [k; k]).
    destruct (bind_opt (lookup k es) follow) as [n2|] eqn:S2.
    2:{ simpl. rewrite write_dir2. destruct (write_fn data k es); auto. }
    destruct n2 as [d2|inner|t2|c2]; simpl.
    2:{ rewrite (write_dir2_in _ _ _ _ inner) by exact S2.
        destruct (write_fn data k inner); auto. }
    all: rewrite write_dir2; destruct (write_fn data k es); auto.
  - destruct (k =? specific); simpl; [auto|].
    run_simpl. unfold sh_copytree. rewrite stat_dir1, S1, lstat_dir2.
    destruct (lookup k es); simpl; auto.
  - run_simpl. unfold copy2. rewrite stat_dir1, S1. auto.
  - run_simpl. unfold copy2. rewrite stat_dir1, S1. auto.
Qed.

(* ===================================================================== *)
(** * [main] on two directories is [sync] *)
(* ===================================================================== *)

Lemma clear_directory2_steps d1 dst out :
  outcome (clear_directory2 model (mkfs d1 (Some (Dir dst)) out)) = fst (clear_all dst) /\
  final (clear_directory2 model (mkfs d1 (Some (Dir dst)) out))
  = mkfs d1 (Some (Dir (snd (clear_all dst)))) out.
Proof.
  unfold clear_directory2, clear_all, os_listdir. run_simpl.
  change (listdir dir2 (mkfs d1 (Some (Dir dst)) out))
    with (Ok (names dst), mkfs d1 (Some (Dir dst)) out).
  cbv beta iota delta [fst snd].
  apply (for_each_steps (clear_item model) clear_step
           (fun es => mkfs d1 (Some (Dir es)) out)).
  intros x es. apply clear_item_step.
Qed.

Lemma copytree_steps src es out :
  outcome (copytree model dir1 dir2 (st src es out)) = fst (copy_all src es) /\
  final (copytree model dir1 dir2 (st src es out)) = st src (snd (copy_all src es)) out.
Proof.
  unfold copytree, copy_all, os_listdir. run_simpl.
  change (listdir dir1 (st src es out)) with (Ok (names src), st src es out).
  cbv beta iota delta [fst snd].
  apply (for_each_steps (copy_item model dir1 dir2) (copy_step src)
           (fun es => st src es out)).
  intros x es'. apply copy_item_step.
Qed.

Lemma dircmp_left_only_st src dst out :
  dircmp_left_only dir1 dir2 (st src dst out)
  = (Ok (left_only_of src dst), st src dst out).
Proof. reflexivity. Qed.

Lemma main_sync src dst out :
  outcome (main model (st src dst out)) = fst (sync src dst) /\
  final (main model (st src dst out))
  = st src (snd (sync src dst)) (out ++ printed src dst).
Proof.
  unfold main, sync, printed, filecmp_dircmp_left_only. run_simpl.
  rewrite dircmp_left_only_st. cbv beta iota delta [fst snd].
  destruct (left_only_of src dst) as [|k l].
  - unfold print, st; simpl. auto.
  - run_simpl. unfold st at 1 2 3 4.
    destruct (clear_directory2_steps (Some (Dir src)) dst out) as [Ho Hf].
    rewrite Ho, Hf. rewrite app_nil_r.
    destruct (clear_all dst) as [[[]|e] es]; cbv beta iota delta [fst snd].
    + apply copytree_steps.
    + auto.
Qed.

(* ===================================================================== *)
(** * Listings *)
(* ===================================================================== *)

Lemma eqb_sym_false (a b : string) : (a =? b) = false -> (b =? a) = false.
Proof. rewrite !String.eqb_neq. congruence. Qed.

Lemma lookup_delete_ne k k' es :
  k' <> k -> lookup k' (delete k es) = lookup k' es.
Proof.
  intros N. induction es as [|[x v] es IH]; simpl; auto.
  destruct (x =? k) eqn:E; simpl.
  - apply String.eqb_eq in E. subst x.
    destruct (k =? k') eqn:E'; auto.
    apply String.eqb_eq in E'. congruence.
  - rewrite IH. reflexivity.
Qed.

Lemma lookup_delete_eq k es : lookup k (delete k es) = None.
Proof.
  induction es as [|[x v] es IH]; simpl; auto.
  destruct (x =? k) eqn:E; simpl; auto. rewrite E. auto.
Qed.

Lemma lookup_alter k k' g es :
  lookup k' (alter k g es)
  = if k =? k' then option_map g (lookup k' es) else lookup k' es.
Proof.
  induction es as [|[x v] es IH]; simpl.
  - destruct (k =? k'); reflexivity.
  - destruct (x =? k) eqn:E; simpl.
    + apply String.eqb_eq in E. subst x.
      destruct (k =? k'); simpl; auto.
    + destruct (x =? k') eqn:E'; auto.
      apply String.eqb_eq in E'. subst x.
      rewrite (eqb_sym_false _ _ E). reflexivity.
Qed.

Lemma lookup_insert k k' v es :
  lookup k' (insert k v es)
  = match lookup k' es with
    | Some x => Some x
    | None => if k =? k' then Some v else None
    end.
Proof.
  unfold insert. induction es as [|[x w] es IH]; simpl; auto.
  destruct (x =? k'); auto.
Qed.

Lemma lookup_in_names k es : In k (names es) <-> lookup k es <> None.
Proof.
  induction es as [|[x v] es IH]; simpl.
  - split; [tauto|congruence].
  - destruct (x =? k) eqn:E.
    + apply String.eqb_eq in E. split; [congruence|auto].
    + apply String.eqb_neq in E. rewrite <- IH. tauto.
Qed.

Lemma lookup_In k v es : lookup k es = Some v -> In (k, v) es.
Proof.
  induction es as [|[x w] es IH]; simpl; [discriminate|].
  destruct (x =? k) eqn:E.
  - apply String.eqb_eq in E. intros [= ->]. subst. auto.
  - auto.
Qed.

Lemma mem_In k l : mem k l = true <-> In k l.
Proof.
  unfold mem. rewrite existsb_exists. split.
  - intros [x [Hx E]]. apply String.eqb_eq in E. subst. auto.
  - intros H. exists k. split; auto. apply String.eqb_refl.
Qed.

Lemma nodupb_NoDup l : nodupb l = true <-> NoDup l.
Proof.
  induction l as [|k l IH]; simpl.
  - split; [constructor|auto].
  - rewrite andb_true_iff, negb_true_iff, IH.
    change (existsb (String.eqb k) l) with (mem k l).
    split.
    + intros [H1 H2]. constructor; auto.
      rewrite <- mem_In. congruence.
    + intros H. inversion H; subst. split; auto.
      destruct (mem k l) eqn:E; auto. apply mem_In in E. tauto.
Qed.

(* ===================================================================== *)
(** * The comparison *)
(* ===================================================================== *)

Lemma left_only_In src dst k :
  In k (left_only_of src dst) <->
  In k (names src) /\ ~ In k (names dst) /\ mem k skipped = false.
Proof.
  unfold left_only_of, dircmp_filter.
  rewrite !filter_In, !negb_true_iff.
  split.
  - intros [[H1 H2] H3]. repeat split; auto.
    intros H. assert (mem k (filter (fun k0 => negb (mem k0 skipped)) (names dst)) = true).
    { apply mem_In. apply filter_In. rewrite H2. auto. }
    congruence.
  - intros [H1 [H2 H3]]. repeat split; auto.
    destruct (mem k (filter (fun k0 => negb (mem k0 skipped)) (names dst))) eqn:E; auto.
    apply mem_In in E. apply filter_In in E. tauto.
Qed.

Lemma left_only_nil src dst :
  (forall k, In k (names src) -> In k (names dst)) -> left_only_of src dst = [].
Proof.
  intros H. destruct (left_only_of src dst) as [|k l] eqn:E; auto.
  assert (I : In k (left_only_of src dst)) by (rewrite E; left; auto).
  apply left_only_In in I. destruct I as [I1 [I2 _]]. elim I2. auto.
Qed.

Lemma main_no_op src dst out :
  left_only_of src dst = [] -> main model (st src dst out) = no_op (st src dst out).
Proof.
  intros H. unfold main, bind, filecmp_dircmp_left_only, library.
  rewrite dircmp_left_only_st. cbv beta iota delta [fst snd outcome final trace].
  rewrite H. reflexivity.
Qed.

(* ===================================================================== *)
(** * Exceptions are not caught *)
(* ===================================================================== *)

Lemma propagates_ret {A} (a : A) s : propagates (ret a s).
Proof. constructor. Qed.

Lemma propagates_library {A} c (f : fs -> result A * fs) s :
  propagates (library c f s).
Proof.
  unfold propagates, library; simpl.
  destruct (fst (f s)) as [a|e]; simpl.
  - repeat constructor.
  - exists [], c. split; [reflexivity|constructor].
Qed.

Lemma propagates_bind {A B} (m : M A) (f : A -> M B) s :
  propagates (m s) ->
  (forall a s', propagates (f a s')) ->
  propagates (bind m f s).
Proof.
  unfold propagates. intros Hm Hf.
  rewrite outcome_bind, trace_bind.
  destruct (outcome (m s)) as [a|e]; [|exact Hm].
  specialize (Hf a (final (m s))).
  destruct (outcome (f a (final (m s)))) as [b|e].
  - apply Forall_app. split; assumption.
  - destruct Hf as [evs [c [Ht Hq]]].
    exists (trace (m s) ++ evs), c. split.
    + rewrite Ht, app_assoc. reflexivity.
    + apply Forall_app. split; assumption.
Qed.

Lemma propagates_for_each {X} (xs : list X) (body : X -> M unit) :
  (forall x s, propagates (body x s)) ->
  forall s, propagates (for_each xs body s).
Proof.
  intros Hb. induction xs as [|x xs IH]; intros s; simpl.
  - apply propagates_ret.
  - apply propagates_bind; auto.
Qed.

Section propagation.
Variable lib : library_impl.

Lemma propagates_clear_item k s : propagates (clear_item lib k s).
Proof.
  unfold clear_item. destruct (negb (k =? specific)).
  - apply propagates_bind; [apply propagates_library|].
    intros [] s'; [|apply propagates_ret].
    apply propagates_bind; [apply propagates_library|].
    intros [] s''; apply propagates_library.
  - apply propagates_ret.
Qed.

Lemma propagates_copy_item src dst k s :
  propagates (copy_item lib src dst k s).
Proof.
  unfold copy_item.
  apply propagates_bind; [apply propagates_library|].
  intros [] s'.
  - destruct (negb (k =? specific));
      [apply propagates_library|apply propagates_ret].
  - apply propagates_library.
Qed.

Lemma propagates_copytree src dst s : propagates (copytree lib src dst s).
Proof.
  unfold copytree. apply propagates_bind; [apply propagates_library|].
  intros items s'. apply propagates_for_each. intros x s''.
  apply propagates_copy_item.
Qed.

Lemma propagates_clear_directory2 s : propagates (clear_directory2 lib s).
Proof.
  unfold clear_directory2. apply propagates_bind; [apply propagates_library|].
  intros items s'. apply propagates_for_each. intros x s''.
  apply propagates_clear_item.
Qed.

(** Whatever the library calls do and raise. *)
Lemma propagates_main s : propagates (main lib s).
Proof.
  unfold main. apply propagates_bind; [apply propagates_library|].
  intros [|k l] s'.
  - apply propagates_library.
  - apply propagates_bind; [apply propagates_clear_directory2|].
    intros _ s''. apply propagates_copytree.
Qed.

End propagation.

(** A run in which nothing was caught raises exactly when one of its
    calls raised. *)
Lemma propagates_raises {A} (r : run A) :
  propagates r ->
  ((exists e, outcome r = Raise e) <-> (exists c e, In (c, Some e) (trace r))).
Proof.
  unfold propagates, quiet. intros H. split.
  - intros [e E]. rewrite E in H. destruct H as [evs [c [T _]]].
    exists c, e. rewrite T. apply in_or_app. right. left. reflexivity.
  - intros [c [e I]]. destruct (outcome r) as [a|e'].
    + rewrite Forall_forall in H. specialize (H _ I). discriminate H.
    + exists e'. reflexivity.
Qed.

Lemma main_bad_input s :
  is_dir (stat dir1 s) = false \/ is_dir (stat dir2 s) = false ->
  exists e, main model s = mkrun (Raise e) s [(Cdircmp_left_only dir1 dir2, Some e)].
Proof.
  intros H.
  assert (L : exists e, dircmp_left_only dir1 dir2 s = (Raise e, s)).
  { unfold dircmp_left_only, listdir.
    destruct (stat dir1 s) as [[d|es|t|c]|]; simpl; eauto.
    destruct (stat dir2 s) as [[d|es2|t|c]|]; simpl; eauto.
    simpl in H. destruct H; discriminate. }
  destruct L as [e L]. exists e.
  unfold main, bind, filecmp_dircmp_left_only, library.
  cbn [model i_dircmp_left_only]. rewrite L. reflexivity.
Qed.

(* ===================================================================== *)
(** * The clearing loop *)
(* ===================================================================== *)

Lemma clear_step_frame k k' es :
  k' <> k -> lookup k' (snd (clear_step k es)) = lookup k' es.
Proof.
  intros N. unfold clear_step.
  destruct (k =? specific); simpl; auto.
  destruct (lookup k es) as [[d|sub|t|c]|]; simpl; auto using lookup_delete_ne.
  destruct (follow t) as [[d|sub|t'|c]|]; simpl; auto using lookup_delete_ne.
Qed.

Lemma clear_step_spared k es v :
  lookup k es = Some v -> k = specific \/ follow v = None ->
  snd (clear_step k es) = es.
Proof.
  intros L H. unfold clear_step.
  destruct (k =? specific) eqn:E; simpl; auto.
  destruct H as [H|H]; [subst; rewrite String.eqb_refl in E; discriminate|].
  rewrite L. destruct v as [d|sub|t|c]; simpl in *; try discriminate; auto.
  rewrite H. reflexivity.
Qed.

(** An entry named [specific], or one that [os.path.exists] denies, is
    still there after any number of iterations, however the loop ends. *)
Lemma clear_steps_spared k v xs : forall es,
  lookup k es = Some v -> k = specific \/ follow v = None ->
  lookup k (snd (steps clear_step xs es)) = Some v.
Proof.
  induction xs as [|x xs IH]; intros es L H; simpl; auto.
  assert (L' : lookup k (snd (clear_step x es)) = Some v).
  { destruct (string_dec k x) as [->|N].
    - rewrite (clear_step_spared x es v); auto.
    - rewrite clear_step_frame; auto. }
  destruct (clear_step x es) as [[[]|e] es']; simpl in *; auto.
Qed.

(** The loop only removes entries. *)
Lemma clear_step_incl k es : incl (snd (clear_step k es)) es.
Proof.
  unfold clear_step, delete.
  destruct (k =? specific); simpl; [apply incl_refl|].
  destruct (lookup k es) as [[d|sub|t|c]|]; simpl;
    try apply incl_refl; try apply incl_filter.
  destruct (follow t) as [[d|sub|t'|c]|]; simpl;
    try apply incl_refl; try apply incl_filter.
Qed.

Lemma clear_steps_incl xs : forall es,
  incl (snd (steps clear_step xs es)) es.
Proof.
  induction xs as [|x xs IH]; intros es; simpl; [apply incl_refl|].
  pose proof (clear_step_incl x es) as I.
  destruct (clear_step x es) as [[[]|e] es']; simpl in *; auto.
  eapply incl_tran; [apply IH|exact I].
Qed.

Lemma clear_step_lookup k k' es :
  lookup k' (snd (clear_step k es)) = lookup k' es \/
  lookup k' (snd (clear_step k es)) = None.
Proof.
  destruct (string_dec k' k) as [->|N].
  - unfold clear_step. destruct (k =? specific); simpl; auto.
    destruct (lookup k es) as [[d|sub|t|c]|] eqn:L; simpl;
      auto using lookup_delete_eq.
    destruct (follow t) as [[d|sub|t'|c]|]; simpl; auto using lookup_delete_eq.
  - left. apply clear_step_frame; auto.
Qed.

Lemma clear_step_dead k k' es :
  dead es k' -> dead (snd (clear_step k es)) k'.
Proof.
  unfold dead. intros D.
  destruct (clear_step_lookup k k' es) as [E|E]; rewrite E; auto.
Qed.

Lemma clear_step_done k es :
  fst (clear_step k es) = Ok tt -> k <> specific ->
  dead (snd (clear_step k es)) k.
Proof.
  unfold clear_step, dead. intros S N.
  apply String.eqb_neq in N. rewrite N in *.
  destruct (lookup k es) as [[d|sub|t|c]|] eqn:L; simpl in *;
    rewrite ?lookup_delete_eq, ?L; simpl; auto.
  destruct (follow t) as [[d|sub|t'|c]|] eqn:F; simpl in *;
    rewrite ?lookup_delete_eq, ?L; simpl; auto; discriminate.
Qed.

Lemma clear_steps_dead xs : forall es k,
  fst (steps clear_step xs es) = Ok tt -> k <> specific ->
  In k xs \/ dead es k ->
  dead (snd (steps clear_step xs es)) k.
Proof.
  induction xs as [|x xs IH]; intros es k S N H; simpl in *.
  - destruct H as [[]|H]; exact H.
  - pose proof (clear_step_done x es) as D.
    pose proof (clear_step_dead x k es) as P.
    destruct (clear_step x es) as [[[]|e] es']; simpl in *; [|discriminate].
    apply IH; auto.
    destruct H as [[->|H]|H]; auto.
Qed.

(** After a clearing loop that returned, [os.path.exists] finds nothing
    under any name but [specific]. *)
Lemma clear_all_dead dst k :
  fst (clear_all dst) = Ok tt -> k <> specific ->
  dead (snd (clear_all dst)) k.
Proof.
  intros S N. apply clear_steps_dead; auto.
  destruct (lookup k dst) eqn:L.
  - left. apply lookup_in_names. congruence.
  - right. unfold dead. rewrite L. reflexivity.
Qed.

Lemma clear_steps_gone k v xs : forall es,
  fst (steps clear_step xs es) = Ok tt -> k <> specific -> follow v <> None ->
  lookup k es = None \/ (In k xs /\ lookup k es = Some v) ->
  lookup k (snd (steps clear_step xs es)) = None.
Proof.
  induction xs as [|x xs IH]; intros es S N F H; simpl in *.
  - destruct H as [H|[[] _]]; exact H.
  - pose proof (clear_step_done x es) as D.
    pose proof (clear_step_lookup x k es) as P.
    pose proof (clear_step_frame x k es) as R.
    destruct (clear_step x es) as [[[]|e] es']; simpl in *; [|discriminate].
    apply IH; auto.
    destruct H as [H|[[->|I] L]].
    + left. destruct P as [P|P]; congruence.
    + specialize (D eq_refl N). unfold dead in D.
      destruct P as [P|P]; auto.
      rewrite P, L in D. simpl in D. contradiction.
    + destruct (string_dec k x) as [->|Nx].
      * specialize (D eq_refl N). unfold dead in D.
        destruct P as [P|P]; auto.
        rewrite P, L in D. simpl in D. contradiction.
      * right. rewrite R; auto.
Qed.

Lemma clear_all_gone dst k v :
  fst (clear_all dst) = Ok tt -> k <> specific ->
  lookup k dst = Some v -> follow v <> None ->
  lookup k (snd (clear_all dst)) = None.
Proof.
  intros S N L F. apply (clear_steps_gone k v); auto.
  right. split; auto. apply lookup_in_names. congruence.
Qed.

Lemma clear_all_none dst k :
  lookup k dst = None -> lookup k (snd (clear_all dst)) = None.
Proof.
  intros L. destruct (lookup k (snd (clear_all dst))) as [v|] eqn:E; auto.
  apply lookup_In in E. apply clear_steps_incl in E.
  assert (In k (names dst)) by (apply in_map_iff; exists (k, v); auto).
  apply lookup_in_names in H. contradiction.
Qed.



(* ===================================================================== *)
(** * What [shutil.copytree] creates *)
(* ===================================================================== *)

Lemma copied_Dir es :
  copied (Dir es)
  = (Some (Dir (fst (copied_entries es))), snd (copied_entries es)).
Proof.
  simpl.
  match goal with
  | |- (Some (Dir (fst (?g es))), snd (?g es)) = _ =>
      assert (E : forall l, g l = copied_entries l)
  end.
  { induction l as [|kv l IH]; simpl; [reflexivity|]. rewrite IH. reflexivity. }
  rewrite E. reflexivity.
Qed.

Lemma copied_entries_cons kv es :
  copied_entries (kv :: es)
  = (match fst (copied (snd kv)) with
     | Some v => (fst kv, v) :: fst (copied_entries es)
     | None => fst (copied_entries es)
     end, snd (copied (snd kv)) + snd (copied_entries es)).
Proof. reflexivity. Qed.

Lemma copied_follow v n : follow v = Some n -> copied v = copied n.
Proof.
  induction v as [d|es|t IH|b]; simpl; intros H; try discriminate; auto.
  - injection H as <-. reflexivity.
  - injection H as <-. reflexivity.
Qed.

Lemma copied_follow_none v : follow v = None -> copied v = (None, 1).
Proof.
  induction v as [d|es|t IH|b]; simpl; intros H; try discriminate; auto.
Qed.

Lemma resolved_none v : resolved v = None <-> follow v = None.
Proof.
  unfold resolved. split.
  - intros H. destruct (follow v) as [n|] eqn:F; auto.
    rewrite (copied_follow v n F) in H.
    destruct n; simpl in *; try discriminate.
    + exfalso; eapply follow_not_link; eauto.
    + exfalso; eapply follow_not_broken; eauto.
  - intros H. rewrite copied_follow_none; auto.
Qed.

(** A created tree holds no link: copying it again changes nothing. *)
Lemma copied_fix n : forall c, fst (copied n) = Some c -> copied c = (Some c, 0).
Proof.
  induction n as [data|es IH|t IH|b] using node_ind'; intros c H.
  - simpl in H. injection H as <-. reflexivity.
  - rewrite copied_Dir in H. simpl in H. injection H as <-.
    rewrite copied_Dir. 
    assert (E : copied_entries (fst (copied_entries es))
                = (fst (copied_entries es), 0)).
    { induction es as [|kv es IHes]; [reflexivity|].
      inversion IH as [|? ? Hkv Hes]; subst.
      rewrite copied_entries_cons. cbn [fst snd].
      destruct (fst (copied (snd kv))) as [v|] eqn:C.
      - rewrite copied_entries_cons. cbn [fst snd].
        rewrite (Hkv v eq_refl), (IHes Hes). reflexivity.
      - apply IHes. exact Hes. }
    rewrite E. reflexivity.
  - simpl in H. auto.
  - simpl in H. discriminate.
Qed.

Lemma resolved_fix n c : resolved n = Some c -> resolved c = Some c.
Proof. unfold resolved. intros H. rewrite (copied_fix n c H). reflexivity. Qed.

Lemma copied_link_free n : link_free n = true -> copied n = (Some n, 0).
Proof.
  induction n as [data|es IH|t IH|b] using node_ind'; simpl link_free;
    intros H; try discriminate.
  - reflexivity.
  - rewrite copied_Dir.
    assert (E : copied_entries es = (es, 0)).
    { induction es as [|kv es IHes]; [reflexivity|].
      inversion IH as [|? ? Hkv Hes]; subst.
      apply andb_true_iff in H. destruct H as [H1 H2].
      rewrite copied_entries_cons.
      rewrite (Hkv H1), (IHes Hes H2). destruct kv; reflexivity. }
    rewrite E. reflexivity.
Qed.

Lemma open_wb_resolved data v v' :
  open_wb data v = Ok v' -> resolved v' = Some (File data).
Proof.
  unfold resolved. revert v'.
  induction v as [d|es|t IH|[]]; simpl; intros v' H; try discriminate.
  - injection H as <-. reflexivity.
  - destruct (open_wb data t) as [t'|e]; [|discriminate].
    injection H as <-. simpl. auto.
  - injection H as <-. reflexivity.
Qed.

Lemma resolved_follow v n : follow v = Some n -> resolved v = resolved n.
Proof. unfold resolved. intros H. rewrite (copied_follow v n H). reflexivity. Qed.

Lemma wf_Dir es :
  wf (Dir es) = true <->
  NoDup (names es) /\ Forall (fun kv => wf (snd kv) = true) es.
Proof.
  simpl. rewrite andb_true_iff, nodupb_NoDup.
  match goal with
  | |- _ /\ ?g es = true <-> _ =>
      assert (E : forall l, g l = true <-> Forall (fun kv => wf (snd kv) = true) l)
  end.
  { induction l as [|kv l IH]; simpl.
    - split; auto.
    - rewrite andb_true_iff, IH. split.
      + intros [H1 H2]. constructor; auto.
      + intros H. inversion H; subst. auto. }
  rewrite E. reflexivity.
Qed.

Lemma wf_lookup es k v : wf (Dir es) = true -> lookup k es = Some v -> wf v = true.
Proof.
  intros W L. apply wf_Dir in W. destruct W as [_ W].
  rewrite Forall_forall in W. apply (W (k, v)). apply lookup_In. exact L.
Qed.

Lemma wf_follow n m : wf n = true -> follow n = Some m -> wf m = true.
Proof.
  induction n as [d|es|t IH|b]; simpl; intros W F; try discriminate; auto.
  - injection F as <-. exact W.
  - injection F as <-. exact W.
Qed.

Lemma lookup_copied_entries es k :
  NoDup (names es) ->
  lookup k (fst (copied_entries es)) = bind_opt (lookup k es) resolved.
Proof.
  induction es as [|[x v] es IH]; intros ND; [reflexivity|].
  inversion ND as [|? ? Nx ND']; subst.
  rewrite copied_entries_cons. cbn [fst snd]. simpl lookup.
  fold (resolved v). destruct (resolved v) as [c|] eqn:R.
  - simpl. destruct (x =? k) eqn:E; simpl; auto.
  - destruct (x =? k) eqn:E; simpl; auto.
    apply String.eqb_eq in E. subst x. rewrite (IH ND').
    destruct (lookup k es) eqn:L; auto.
    elim Nx. apply lookup_in_names. congruence.
Qed.

Lemma reach_dead v q : follow v = None -> reach v q = None.
Proof.
  intros F. unfold reach. destruct q as [|k q]; simpl.
  - apply resolved_none. exact F.
  - rewrite F. reflexivity.
Qed.

Lemma reach_file v data q :
  follow v = Some (File data) ->
  reach v q = match q with [] => Some (File data) | _ => None end.
Proof.
  intros F. unfold reach. destruct q as [|k q]; simpl.
  - rewrite (resolved_follow v _ F). reflexivity.
  - rewrite F. reflexivity.
Qed.

Lemma follow_resolved n c :
  resolved n = Some c ->
  (exists data, follow n = Some (File data) /\ c = File data) \/
  (exists es, follow n = Some (Dir es) /\ c = Dir (fst (copied_entries es))).
Proof.
  intros R. destruct (follow n) as [m|] eqn:F.
  - rewrite (resolved_follow n m F) in R. destruct m as [d|es|t|b].
    + left. exists d. unfold resolved in R. simpl in R. split; congruence.
    + right. exists es. unfold resolved in R. rewrite copied_Dir in R.
      simpl in R. split; congruence.
    + exfalso; eapply follow_not_link; eauto.
    + exfalso; eapply follow_not_broken; eauto.
  - apply resolved_none in F. congruence.
Qed.

(** Below a created tree one finds what one finds below its source, links
    resolved, at every depth and under every name. *)
Lemma reach_resolved q : forall n c,
  wf n = true -> resolved n = Some c -> reach c q = reach n q.
Proof.
  induction q as [|k q IH]; intros n c W R.
  - unfold reach; simpl. rewrite R. eapply resolved_fix; eauto.
  - destruct (follow_resolved n c R) as [[data [F ->]]|[es [F ->]]].
    + rewrite (reach_file n data _ F). reflexivity.
    + pose proof (wf_follow n _ W F) as Wes.
      unfold reach; simpl. rewrite F.
      rewrite lookup_copied_entries by (apply wf_Dir in Wes; tauto).
      destruct (lookup k es) as [x|] eqn:L; simpl; auto.
      destruct (resolved x) as [x'|] eqn:Rx.
      * apply (IH x x'); auto. eapply wf_lookup; eauto.
      * symmetry. apply reach_dead. apply resolved_none. exact Rx.
Qed.

Lemma reach_cons es k q :
  reach (Dir es) (k :: q)
  = match lookup k es with
    | Some x => reach x q
    | None => None
    end.
Proof. unfold reach; simpl. destruct (lookup k es); reflexivity. Qed.

(* ===================================================================== *)
(** * The copying loop *)
(* ===================================================================== *)

Lemma write_fn_frame data k l f k' es :
  write_fn data k l = Ok f -> k' <> k -> lookup k' (f es) = lookup k' es.
Proof.
  unfold write_fn. intros W N.
  assert (E : (k =? k') = false) by (apply String.eqb_neq; congruence).
  destruct (lookup k l) as [v|].
  - destruct (open_wb data v) as [v'|e]; [|discriminate].
    injection W as <-. rewrite lookup_alter, E. reflexivity.
  - injection W as <-. rewrite lookup_insert, E.
    destruct (lookup k' es); reflexivity.
Qed.

Lemma copy_step_frame src k k' es :
  k' <> k -> lookup k' (snd (copy_step src k es)) = lookup k' es.
Proof.
  intros N. unfold copy_step.
  assert (E : (k =? k') = false) by (apply String.eqb_neq; congruence).
  destruct (bind_opt (lookup k src) follow) as [[data|sub|t|c]|]; simpl; auto.
  - destruct (bind_opt (lookup k es) follow) as [[d|inner|t|c]|].
    2:{ destruct (write_fn data k inner); simpl; auto.
        rewrite lookup_alter, E. reflexivity. }
    all: destruct (write_fn data k es) eqn:W; simpl; auto;
      eapply write_fn_frame; eauto.
  - destruct (k =? specific); simpl; auto.
    destruct (lookup k es); simpl; auto.
    rewrite lookup_insert, E. destruct (lookup k' es); reflexivity.
Qed.

Lemma copy_steps_frame src k xs : forall es,
  ~ In k xs -> lookup k (snd (steps (copy_step src) xs es)) = lookup k es.
Proof.
  induction xs as [|x xs IH]; intros es N; simpl in *; auto.
  pose proof (copy_step_frame src x k es) as F.
  destruct (copy_step src x es) as [[[]|e] es']; simpl in *.
  - rewrite IH; auto.
  - auto.
Qed.



(** One iteration that returned, for a name other than [specific] under
    which [directory2] holds nothing that exists. *)
Lemma copy_step_done src k v es :
  fst (copy_step src k es) = Ok tt -> k <> specific ->
  lookup k src = Some v -> dead es k ->
  exists v', lookup k (snd (copy_step src k es)) = Some v' /\
             resolved v' = resolved v /\
             (lookup k es = None -> Some v' = resolved v) /\
             (wf v = true -> forall q, reach v' q = reach v q).
Proof.
  unfold copy_step, dead. intros S N L D. rewrite L in *. simpl in *.
  apply String.eqb_neq in N. rewrite N in *.
  destruct (follow v) as [[data|sub|t|c]|] eqn:F; simpl in *;
    try discriminate.
  - rewrite D in *. unfold write_fn in *.
    rewrite (resolved_follow v _ F).
    destruct (lookup k es) as [vd|] eqn:E.
    + destruct (open_wb data vd) as [v'|e] eqn:O; simpl in *; [|discriminate].
      exists v'. rewrite lookup_alter, String.eqb_refl, E. simpl.
      pose proof (open_wb_resolved _ _ _ O) as R.
      repeat split; auto; [discriminate|].
      intros _ q. rewrite (reach_file v data q F).
      destruct (follow_resolved v' _ R) as [[d [F' [= <-]]]|[es' [_ Z]]];
        [|discriminate].
      apply reach_file. exact F'.
    + simpl. exists (File data). rewrite lookup_insert, E, String.eqb_refl.
      repeat split; auto.
      intros _ q. rewrite (reach_file v data q F). apply reach_file. reflexivity.
  - destruct (lookup k es) as [vd|] eqn:E; simpl in *; [discriminate|].
    exists (Dir (fst (copied_entries sub))).
    rewrite lookup_insert, E, String.eqb_refl.
    assert (R : resolved v = Some (Dir (fst (copied_entries sub)))).
    { rewrite (resolved_follow v _ F). unfold resolved. rewrite copied_Dir.
      reflexivity. }
    rewrite R. repeat split; auto.
    + eapply resolved_fix; eauto.
    + intros W q. apply reach_resolved; auto.
Qed.

Lemma copy_steps_done src xs : forall es,
  NoDup xs -> fst (steps (copy_step src) xs es) = Ok tt ->
  forall k v, In k xs -> k <> specific -> lookup k src = Some v -> dead es k ->
  exists v', lookup k (snd (steps (copy_step src) xs es)) = Some v' /\
             resolved v' = resolved v /\
             (lookup k es = None -> Some v' = resolved v) /\
             (wf v = true -> forall q, reach v' q = reach v q).
Proof.
  induction xs as [|x xs IH]; intros es ND S k v I N L D; simpl in *;
    [contradiction|].
  inversion ND as [|? ? Nx ND']; subst.
  pose proof (copy_step_done src x v es) as Done.
  pose proof (fun N' => copy_step_frame src x k es N') as Fr.
  pose proof (copy_steps_frame src x xs) as Fs.
  destruct (copy_step src x es) as [[[]|e] es'] eqn:C; simpl in *;
    [|discriminate].
  destruct I as [->|I].
  - rewrite (Fs es' Nx). apply Done; auto.
  - assert (Nk : k <> x) by (intros ->; contradiction).
    destruct (IH es' ND' S k v I N L) as [v' [H1 [H2 [H3 H4]]]].
    + unfold dead. rewrite Fr; auto.
    + exists v'. repeat split; auto. intros Z. apply H3. rewrite Fr; auto.
Qed.

(** A source directory is only copied to a name that [directory2] does
    not hold. *)
Lemma copy_step_fresh src k v es :
  fst (copy_step src k es) = Ok tt -> k <> specific ->
  lookup k src = Some v -> is_dir (follow v) = true ->
  lookup k es = None.
Proof.
  unfold copy_step. intros S N L D. rewrite L in *. simpl in *.
  apply String.eqb_neq in N. rewrite N in *.
  destruct (follow v) as [[data|sub|t|c]|]; try discriminate.
  destruct (lookup k es); [discriminate|reflexivity].
Qed.

Lemma copy_steps_fresh src xs : forall es,
  NoDup xs -> fst (steps (copy_step src) xs es) = Ok tt ->
  forall k v, In k xs -> k <> specific -> lookup k src = Some v ->
  is_dir (follow v) = true -> lookup k es = None.
Proof.
  induction xs as [|x xs IH]; intros es ND S k v I N L D; simpl in *;
    [contradiction|].
  inversion ND as [|? ? Nx ND']; subst.
  pose proof (copy_step_fresh src x v es) as Fresh.
  pose proof (fun N' => copy_step_frame src x k es N') as Fr.
  destruct (copy_step src x es) as [[[]|e] es'] eqn:C; simpl in *;
    [|discriminate].
  destruct I as [->|I].
  - apply Fresh; auto.
  - assert (Nk : k <> x) by (intros ->; contradiction).
    rewrite <- Fr by auto. eapply IH; eauto.
Qed.

(** Unless the source holds a file named [specific], the copying loop
    leaves the entry [specific] of [directory2] as it is. *)
Lemma copy_steps_specific src xs : forall es,
  source_specific_file src = false ->
  lookup specific (snd (steps (copy_step src) xs es)) = lookup specific es.
Proof.
  unfold source_specific_file.
  induction xs as [|x xs IH]; intros es H; simpl; auto.
  assert (E : lookup specific (snd (copy_step src x es)) = lookup specific es).
  { destruct (string_dec specific x) as [<-|N];
      [|apply copy_step_frame; auto].
    unfold copy_step.
    destruct (bind_opt (lookup specific src) follow) as [[d|sub|t|c]|];
      try discriminate; auto. }
  destruct (copy_step src x es) as [[[]|e] es']; simpl in *; auto.
  rewrite IH; auto.
Qed.



(* ===================================================================== *)
(** * [sync]: the two phases together *)
(* ===================================================================== *)

Lemma source_only_left_only src dst :
  source_only src dst <-> left_only_of src dst <> [].
Proof.
  unfold source_only. split.
  - intros [k H] E. apply left_only_In in H. rewrite E in H. exact H.
  - intros H. destruct (left_only_of src dst) as [|k l] eqn:E; [congruence|].
    exists k. apply left_only_In. rewrite E. left. reflexivity.
Qed.

Lemma outcome_main src dst out :
  outcome (main model (st src dst out)) = fst (sync src dst).
Proof. apply main_sync. Qed.

Lemma dest_main src dst out :
  dest (final (main model (st src dst out))) = snd (sync src dst).
Proof. destruct (main_sync src dst out) as [_ H]. rewrite H. reflexivity. Qed.

Lemma sync_copy_path src dst :
  left_only_of src dst <> [] -> fst (sync src dst) = Ok tt ->
  fst (clear_all dst) = Ok tt /\
  fst (copy_all src (snd (clear_all dst))) = Ok tt /\
  snd (sync src dst) = snd (copy_all src (snd (clear_all dst))).
Proof.
  unfold sync. intros H S.
  destruct (left_only_of src dst) as [|k l]; [congruence|].
  destruct (clear_all dst) as [[[]|e] es]; simpl in *; [auto|discriminate].
Qed.

(** The listing left by a run that cleared, copied and returned, name by
    name outside [specific]. *)
Lemma sync_names src dst :
  NoDup (names src) -> left_only_of src dst <> [] ->
  fst (sync src dst) = Ok tt ->
  forall k, k <> specific ->
  match lookup k src with
  | Some v =>
      exists v', lookup k (snd (sync src dst)) = Some v' /\
                 resolved v' = resolved v /\
                 (lookup k (snd (clear_all dst)) = None ->
                  Some v' = resolved v) /\
                 (wf v = true -> forall q, reach v' q = reach v q)
  | None => dead (snd (sync src dst)) k
  end.
Proof.
  intros ND H S k N.
  destruct (sync_copy_path src dst H S) as [S1 [S2 ->]].
  pose proof (clear_all_dead dst k S1 N) as D.
  destruct (lookup k src) as [v|] eqn:L.
  - apply copy_steps_done; auto.
    apply lookup_in_names. congruence.
  - unfold dead, copy_all. rewrite copy_steps_frame; auto.
    intros I. apply lookup_in_names in I. contradiction.
Qed.

Lemma sync_specific src dst :
  source_specific_file src = false ->
  lookup specific (snd (sync src dst)) = lookup specific dst.
Proof.
  intros H. unfold sync.
  assert (C : lookup specific (snd (clear_all dst)) = lookup specific dst).
  { destruct (lookup specific dst) as [v|] eqn:L.
    - apply clear_steps_spared; auto.
    - apply clear_all_none. exact L. }
  destruct (left_only_of src dst) as [|k l]; [reflexivity|].
  destruct (clear_all dst) as [[[]|e] es]; simpl in *; auto.
  unfold copy_all. rewrite copy_steps_specific; auto.
Qed.

(* ===================================================================== *)
(** * Running again *)
(* ===================================================================== *)









(* ===================================================================== *)
(** * Directories without symbolic links *)
(* ===================================================================== *)

Lemma top_plain_In es k v :
  top_plain es = true -> In (k, v) es -> plain v = true.
Proof.
  unfold top_plain. rewrite forallb_forall. intros H I. exact (H _ I).
Qed.

Lemma dest_link_free_top src dst :
  dest_link_free src dst = true -> top_plain dst = true.
Proof. unfold dest_link_free. intros H. apply andb_true_iff in H. tauto. Qed.

Lemma source_link_free_plain src k v :
  source_link_free src = true -> In (k, v) src -> plain v = true.
Proof.
  unfold source_link_free. rewrite forallb_forall. intros H I.
  specialize (H _ I). simpl in H. apply andb_true_iff in H. tauto.
Qed.

Lemma source_link_free_entry src k v :
  source_link_free src = true -> In (k, v) src -> k <> specific ->
  link_free v = true.
Proof.
  unfold source_link_free. rewrite forallb_forall. intros H I N.
  specialize (H _ I). simpl in H.
  apply andb_true_iff in H. destruct H as [_ H].
  apply String.eqb_neq in N. rewrite N in H. exact H.
Qed.

Lemma plain_follow v : plain v = true -> follow v = Some v.
Proof. destruct v; simpl; auto; discriminate. Qed.

Lemma link_free_entry es k v :
  link_free (Dir es) = true -> In (k, v) es -> link_free v = true.
Proof.
  simpl. induction es as [|kv es IH]; intros H I; [contradiction|].
  apply andb_true_iff in H. destruct H as [H1 H2].
  destruct I as [->|I]; auto.
Qed.

Lemma lookup_NoDup k v es :
  NoDup (names es) -> In (k, v) es -> lookup k es = Some v.
Proof.
  induction es as [|[x w] es IH]; intros ND I; [contradiction|].
  inversion ND as [|? ? Nx ND']; subst. simpl.
  destruct I as [[= -> ->]|I].
  - rewrite String.eqb_refl. reflexivity.
  - destruct (x =? k) eqn:E; auto.
    apply String.eqb_eq in E. subst x. elim Nx.
    apply in_map_iff. exists (k, v). auto.
Qed.

Lemma walk_cons es k q :
  walk (Dir es) (k :: q)
  = match lookup k es with Some c => walk c q | None => None end.
Proof. reflexivity. Qed.

(** Copying entries that are no links, and hold none unless named
    [specific], to names the destination lacks adds them as they are. *)
Lemma copy_steps_append src l : forall es,
  (forall k v, In (k, v) l ->
               lookup k src = Some v /\ plain v = true /\
               (k <> specific -> link_free v = true)) ->
  source_specific_file src = false ->
  NoDup (names l) ->
  (forall k, In k (names l) -> k <> specific -> lookup k es = None) ->
  steps (copy_step src) (names l) es = (Ok tt, es ++ filter copied_at_top l).
Proof.
  induction l as [|[k v] l IH]; intros es H SF ND Fresh; simpl.
  - rewrite app_nil_r. reflexivity.
  - inversion ND as [|? ? Nk ND']; subst.
    destruct (H k v (or_introl eq_refl)) as [L [Pv LF]].
    assert (Next : forall es',
               (forall k', k' <> k -> lookup k' es' = lookup k' es) ->
               steps (copy_step src) (names l) es'
               = (Ok tt, es' ++ filter copied_at_top l)).
    { intros es' Fr. apply IH; auto.
      - intros k' v' I. apply H. right. exact I.
      - intros k' I N'. rewrite Fr.
        + apply Fresh; auto. right. exact I.
        + intros ->. contradiction. }
    unfold copy_step at 1. rewrite L. simpl.
    rewrite (plain_follow v Pv).
    unfold copied_at_top at 1. cbn [fst snd].
    rewrite (plain_follow v Pv).
    destruct v as [data|sub|t|b]; try discriminate; cbn [is_dir].
    + rewrite andb_false_r. cbn [negb].
      assert (N : k <> specific).
      { intros ->. unfold source_specific_file in SF. rewrite L in SF.
        discriminate. }
      rewrite (Fresh k (or_introl eq_refl) N). simpl.
      unfold write_fn. rewrite (Fresh k (or_introl eq_refl) N).
      rewrite Next.
      * unfold insert. rewrite <- app_assoc. reflexivity.
      * intros k' N'. rewrite lookup_insert.
        destruct (lookup k' es); auto.
        destruct (k =? k') eqn:E; auto.
        apply String.eqb_eq in E. congruence.
    + rewrite andb_true_r. destruct (k =? specific) eqn:E; cbn [negb].
      * apply Next. auto.
      * apply String.eqb_neq in E.
        rewrite (Fresh k (or_introl eq_refl) E).
        pose proof (copied_link_free (Dir sub) (LF E)) as C.
        rewrite copied_Dir in C.
        assert (C' : copied_entries sub = (sub, 0)).
        { destruct (copied_entries sub). simpl in C. congruence. }
        rewrite C'. cbn [fst snd]. rewrite Next.
        -- unfold insert. rewrite <- app_assoc. reflexivity.
        -- intros k' N'. rewrite lookup_insert.
           destruct (lookup k' es); auto.
           destruct (k =? k') eqn:E'; auto.
           apply String.eqb_eq in E'. congruence.
Qed.

Lemma filter_twice {X} (f g : X -> bool) l :
  filter f (filter g l) = filter (fun x => g x && f x) l.
Proof.
  induction l as [|x l IH]; simpl; [reflexivity|].
  destruct (g x); simpl; [|exact IH].
  destruct (f x); rewrite IH; reflexivity.
Qed.

(** Clearing a listing of files and directories keeps the entries named
    [specific] and nothing else. *)
Lemma clear_steps_plain xs : forall es,
  (forall k v, In (k, v) es -> plain v = true) ->
  steps clear_step xs es
  = (Ok tt, filter (fun kv => (fst kv =? specific) || negb (mem (fst kv) xs))
              es).
Proof.
  induction xs as [|x xs IH]; intros es P; simpl.
  - f_equal. symmetry. apply forallb_filter_id. apply forallb_forall.
    intros kv _. apply orb_true_r.
  - assert (C : clear_step x es
                = (Ok tt, if x =? specific then es else delete x es)).
    { unfold clear_step. destruct (x =? specific); [reflexivity|].
      destruct (lookup x es) as [v|] eqn:L.
      - apply lookup_In in L. pose proof (P _ _ L) as Pv.
        destruct v; try discriminate; reflexivity.
      - f_equal. unfold delete. symmetry. apply forallb_filter_id.
        apply forallb_forall. intros [k v] I. simpl.
        destruct (k =? x) eqn:E; auto.
        apply String.eqb_eq in E. subst k.
        assert (J : In x (names es)).
        { apply in_map_iff. exists (x, v). auto. }
        apply lookup_in_names in J. contradiction. }
    rewrite C. destruct (x =? specific) eqn:X.
    + rewrite IH by exact P. f_equal. apply filter_ext_in.
      intros [k v] _. simpl. destruct (k =? specific) eqn:K; auto.
      simpl. apply String.eqb_eq in X. subst x.
      rewrite K. reflexivity.
    + rewrite IH.
      * f_equal. unfold delete. rewrite filter_twice. apply filter_ext.
        intros [k v]. simpl. destruct (k =? x) eqn:E.
        -- apply String.eqb_eq in E. subst k. rewrite X. reflexivity.
        -- reflexivity.
      * intros k v I. apply (P k v). unfold delete in I.
        apply filter_In in I. tauto.
Qed.

Lemma clear_all_plain_listing dst :
  top_plain dst = true ->
  clear_all dst = (Ok tt, filter (fun kv => fst kv =? specific) dst).
Proof.
  intros TP. unfold clear_all. rewrite clear_steps_plain.
  - f_equal. apply filter_ext_in. intros [k v] I. simpl.
    assert (M : mem k (names dst) = true).
    { apply mem_In. apply in_map_iff. exists (k, v). auto. }
    rewrite M. apply orb_false_r.
  - intros k v I. eapply top_plain_In; eauto.
Qed.

Lemma lookup_filter_specific k dst :
  k <> specific -> lookup k (filter (fun kv => fst kv =? specific) dst) = None.
Proof.
  intros N. induction dst as [|[x v] dst IH]; simpl; [reflexivity|].
  destruct (x =? specific) eqn:E; simpl; auto.
  apply String.eqb_eq in E. subst x.
  destruct (specific =? k) eqn:E'; auto.
  apply String.eqb_eq in E'. congruence.
Qed.

(** Without links where [main] reads and among the entries it clears, a
    run that cleared, copied and returned leaves under every name other
    than [specific] what the source holds there. *)
Lemma sync_lookup src dst :
  NoDup (names src) -> source_link_free src = true -> top_plain dst = true ->
  left_only_of src dst <> [] -> fst (sync src dst) = Ok tt ->
  forall k, k <> specific -> lookup k (snd (sync src dst)) = lookup k src.
Proof.
  intros ND SL TP NE S k N.
  assert (C : lookup k (snd (clear_all dst)) = None).
  { rewrite (clear_all_plain_listing dst TP). cbn [snd].
    apply lookup_filter_specific. exact N. }
  pose proof (sync_names src dst ND NE S k N) as H.
  destruct (lookup k src) as [v|] eqn:L.
  - destruct H as [v' [H1 [_ [H3 _]]]]. rewrite H1, (H3 C).
    unfold resolved.
    rewrite (copied_link_free v
               (source_link_free_entry src k v SL (lookup_In _ _ _ L) N)).
    reflexivity.
  - destruct (sync_copy_path src dst NE S) as [_ [_ ->]].
    unfold copy_all. rewrite copy_steps_frame; auto.
    intros I. apply lookup_in_names in I. contradiction.
Qed.

(** Without links, and without a source file named [specific], a run
    that finds a name returns. *)
Lemma sync_returns src dst :
  NoDup (names src) -> source_link_free src = true ->
  source_specific_file src = false -> top_plain dst = true ->
  left_only_of src dst <> [] ->
  fst (sync src dst) = Ok tt.
Proof.
  intros ND SL SF TP NE. unfold sync.
  destruct (left_only_of src dst); [congruence|].
  rewrite (clear_all_plain_listing dst TP).
  unfold copy_all. rewrite (copy_steps_append src src); auto.
  - intros k v I. split; [apply lookup_NoDup; auto|]. split.
    + eapply source_link_free_plain; eauto.
    + eapply source_link_free_entry; eauto.
  - intros k _ N. apply lookup_filter_specific. exact N.
Qed.


(* ===================================================================== *)
(** * The calls of the clearing loop *)
(* ===================================================================== *)

(** On an entry that [os.path.exists] denies, [clear_item] only asks. *)
Lemma clear_item_trace_unseen k d1 es out :
  dead es k ->
  forall ev, In ev (trace (clear_item model k (mkfs d1 (Some (Dir es)) out))) ->
             fst ev = Cexists (os_path_join dir2 k).
Proof.
  unfold dead, clear_item. intros D ev.
  change (os_path_join dir2 k) with (Directory2, [k]).
  destruct (negb (k =? specific)); [|intros []].
  rewrite trace_bind. unfold os_path_exists at 1 2 3.
  rewrite outcome_library, final_library. lib_simpl.
  rewrite stat_dir2, D. simpl. intros [<-|[]]. reflexivity.
Qed.

(** The calls of [clear_item] are about the item's own path. *)
Lemma clear_item_trace_path x s ev :
  In ev (trace (clear_item model x s)) ->
  fst ev = Cexists (os_path_join dir2 x) \/
  fst ev = Cisdir (os_path_join dir2 x) \/
  fst ev = Crmtree (os_path_join dir2 x) \/
  fst ev = Cremove (os_path_join dir2 x).
Proof.
  unfold clear_item. destruct (negb (x =? specific)); [|intros []].
  rewrite trace_bind.
  destruct (outcome (os_path_exists model (os_path_join dir2 x) s)) as [[]|e].
  - intros I. apply in_app_or in I. destruct I as [[<-|[]]|I]; [auto|].
    rewrite trace_bind in I.
    destruct (outcome (os_path_isdir model (os_path_join dir2 x) _)) as [[]|e].
    + apply in_app_or in I. destruct I as [[<-|[]]|[<-|[]]]; auto.
    + apply in_app_or in I. destruct I as [[<-|[]]|[<-|[]]]; auto.
    + destruct I as [<-|[]]; auto.
  - intros I. apply in_app_or in I. destruct I as [[<-|[]]|[]]; auto.
  - intros [<-|[]]; auto.
Qed.

(** Neither [shutil.rmtree] nor [os.remove] is called on an entry that
    [os.path.exists] denies. *)
Lemma clear_trace_unseen k v d1 out xs : forall es,
  lookup k es = Some v -> follow v = None ->
  forall ev,
    In ev (trace (for_each xs (clear_item model) (mkfs d1 (Some (Dir es)) out))) ->
    fst ev <> Crmtree (os_path_join dir2 k) /\
    fst ev <> Cremove (os_path_join dir2 k).
Proof.
  induction xs as [|x xs IH]; intros es L F ev; simpl; [intros []|].
  rewrite trace_bind.
  destruct (clear_item_step x d1 es out) as [Ho Hf]. rewrite Hf.
  assert (Here : In ev (trace (clear_item model x (mkfs d1 (Some (Dir es)) out))) ->
                 fst ev <> Crmtree (os_path_join dir2 k) /\
                 fst ev <> Cremove (os_path_join dir2 k)).
  { intros I. destruct (string_dec x k) as [->|N].
    - rewrite (clear_item_trace_unseen k d1 es out) by
        (auto; unfold dead; rewrite L; exact F).
      split; discriminate.
    - apply clear_item_trace_path in I.
      assert (os_path_join dir2 x <> os_path_join dir2 k).
      { unfold os_path_join; simpl. congruence. }
      destruct I as [E|[E|[E|E]]]; rewrite E; split; congruence. }
  destruct (outcome (clear_item model x (mkfs d1 (Some (Dir es)) out))); [|exact Here].
  intros I. apply in_app_or in I. destruct I as [I|I]; [auto|].
  apply (IH (snd (clear_step x es))); auto.
  destruct (string_dec k x) as [->|N].
  - rewrite (clear_step_spared x es v); auto.
  - rewrite clear_step_frame; auto.
Qed.

(* ===================================================================== *)
(** * Properties of [main] *)
(* ===================================================================== *)

(** C3.  When every top-level name of the source is a name of the
    destination (in particular when the two name sets are the same),
    [main] changes neither directory, prints the one line "Directories are
    identical. No action needed." and returns; the comparison and the print
    are the only calls it makes. *)
Theorem no_source_only_name_is_no_op src dst out :
  (forall k, In k (names src) -> In k (names dst)) ->
  main model (st src dst out)
  = mkrun (Ok tt) (st src dst (out ++ [identical_message]))
      [(Cdircmp_left_only dir1 dir2, None); (Cprint identical_message, None)].
Proof.
  intros H. rewrite main_no_op by (apply left_only_nil; exact H).
  reflexivity.
Qed.

Lemma no_source_only_name_is_no_op_witness :
  (forall k, In k (names [("a", Dir [])]) ->
             In k (names [("a", File "x"); ("b", Dir [])])) /\
  main model (st [("a", Dir [])] [("a", File "x"); ("b", Dir [])] [])
  = mkrun (Ok tt)
      (st [("a", Dir [])] [("a", File "x"); ("b", Dir [])]
         [identical_message])
      [(Cdircmp_left_only dir1 dir2, None); (Cprint identical_message, None)].
Proof.
  assert (H : forall k, In k (names [("a", Dir [])]) ->
                        In k (names [("a", File "x"); ("b", Dir [])])).
  { intros k [<-|[]]. left. reflexivity. }
  split; [exact H|].
  exact (no_source_only_name_is_no_op
           [("a", Dir [])] [("a", File "x"); ("b", Dir [])] [] H).
Defined.

(** C9.  [main] catches nothing.  Whatever the library calls do to the
    state and whichever exceptions they raise ([lib] is any behaviour of
    the nine calls), in every state: either [main] returns and no call it
    made raised, or it ends with the exception of the last call it made,
    the only one that raised; so it raises exactly when one of its calls
    does.  With the library as modelled, when one of the two paths is
    missing or is not a directory, that call is the comparison, and nothing
    has been changed. *)
Theorem exceptions_propagate (lib : library_impl) s :
  propagates (main lib s) /\
  ((exists e, outcome (main lib s) = Raise e) <->
   (exists c e, In (c, Some e) (trace (main lib s)))) /\
  (is_dir (stat dir1 s) && is_dir (stat dir2 s) = false ->
   exists e,
     main model s = mkrun (Raise e) s [(Cdircmp_left_only dir1 dir2, Some e)]).
Proof.
  split; [|split].
  - apply propagates_main.
  - apply propagates_raises. apply propagates_main.
  - intros H. apply main_bad_input. apply andb_false_iff. exact H.
Qed.

Lemma exceptions_propagate_witness :
  let s := mkfs None (Some (Dir [])) [] in
  is_dir (stat dir1 s) && is_dir (stat dir2 s) = false /\
  exists e,
    main model s = mkrun (Raise e) s [(Cdircmp_left_only dir1 dir2, Some e)].
Proof.
  intros s. split; [reflexivity|].
  exact (proj2 (proj2 (exceptions_propagate model s)) eq_refl).
Defined.

(** C10.  In the clearing loop, however it ends: a top-level entry of
    [directory2] for which [os.path.exists] answers false, a dangling
    symbolic link for one, is still there unchanged afterwards, neither
    [shutil.rmtree] nor [os.remove] having been called on it; and an entry
    that is gone was not named [specific] and was reported as existing. *)
Theorem unseen_entry_survives_clear d1 dst out k v :
  lookup k dst = Some v ->
  let s := mkfs d1 (Some (Dir dst)) out in
  let p := os_path_join dir2 k in
  (outcome (os_path_exists model p s) = Ok false ->
   lstat p (final (clear_directory2 model s)) = Some v) /\
  (lstat p (final (clear_directory2 model s)) = None ->
   k <> specific /\ outcome (os_path_exists model p s) = Ok true) /\
  (outcome (os_path_exists model p s) = Ok false ->
   forall ev, In ev (trace (clear_directory2 model s)) ->
              fst ev <> Crmtree p /\ fst ev <> Cremove p) /\
  (forall c, v = Broken c -> outcome (os_path_exists model p s) = Ok false).
Proof.
  intros L s p.
  assert (T : follow v = None -> forall ev,
              In ev (trace (clear_directory2 model s)) ->
              fst ev <> Crmtree p /\ fst ev <> Cremove p).
  { intros F ev. unfold clear_directory2. rewrite trace_bind.
    unfold os_listdir at 1 2 3. rewrite outcome_library, final_library.
    change (listdir dir2 s) with (Ok (names dst), s). cbn [fst snd].
    intros I. apply in_app_or in I. destruct I as [[<-|[]]|I].
    - split; discriminate.
    - apply (clear_trace_unseen k v d1 out (names dst) dst); auto. }
  revert T.
  destruct (clear_directory2_steps d1 dst out) as [_ F].
  fold s in F. rewrite F. unfold p, s.
  change (os_path_join dir2 k) with (Directory2, [k]).
  rewrite lstat_dir2. unfold os_path_exists. rewrite outcome_library.
  cbn [model i_exists]. unfold path_exists. cbn [fst].
  rewrite stat_dir2, L. cbn [bind_opt]. unfold clear_all.
  intros T. split; [|split; [|split]].
  - intros [= E]. apply clear_steps_spared; auto.
    right. destruct (follow v); [discriminate|reflexivity].
  - intros G. destruct (string_dec k specific) as [->|N].
    + rewrite (clear_steps_spared specific v) in G; auto. discriminate.
    + split; auto. destruct (follow v) eqn:E; [reflexivity|].
      rewrite (clear_steps_spared k v) in G; auto. discriminate.
  - intros [= E]. apply T. destruct (follow v); [discriminate|reflexivity].
  - intros c ->. reflexivity.
Qed.

Lemma unseen_entry_survives_clear_witness :
  let dst := [("a", Dir []); ("l", Broken false); ("f", File "x")] in
  let s := mkfs (Some (Dir [])) (Some (Dir dst)) [] in
  lookup "l" dst = Some (Broken false) /\
  outcome (os_path_exists model (os_path_join dir2 "l") s) = Ok false /\
  lstat (os_path_join dir2 "l") (final (clear_directory2 model s))
  = Some (Broken false).
Proof.
  intros dst s. split; [reflexivity|]. split; [reflexivity|].
  exact (proj1 (unseen_entry_survives_clear (Some (Dir [])) dst [] "l"
                  (Broken false) eq_refl) eq_refl).
Defined.

(** C2.  The entry [specific] of the destination is overwritten when the
    source holds a file of that name: a destination file [specific] takes
    the source's contents, and a destination directory [specific] has its
    own entry [specific] rewritten, in runs that return normally. *)
Theorem specific_file_overwrites_destination :
  let src := [("specific", File "new"); ("c", Dir [])] in
  let s := st src [("specific", File "old")] [] in
  let s' := st src [("specific", Dir [("specific", File "old")])] [] in
  (outcome (main model s) = Ok tt /\
   lookup specific (dest s) = Some (File "old") /\
   lookup specific (dest (final (main model s))) = Some (File "new")) /\
  (outcome (main model s') = Ok tt /\
   lookup specific (dest s') = Some (Dir [("specific", File "old")]) /\
   lookup specific (dest (final (main model s')))
   = Some (Dir [("specific", File "new")])).
Proof. vm_compute. repeat split. Qed.

(** C8.  Scenario C: with directory1 = {a/, c/} and directory2 = {a/, b/,
    specific/}, whatever the directories hold (the source ones holding no
    symbolic link), the comparison finds [c]; the loop over directory2
    removes [a] and [b] with [shutil.rmtree] and leaves [specific] as it
    is; [a] and [c] are then copied with [shutil.copytree]; the final
    listing of directory2 is {specific/, a/, c/}, [b] gone, [a] and [c]
    being those of directory1. *)
Theorem scenario_c a1 c1 a2 b2 s2 out :
  link_free (Dir a1) = true -> link_free (Dir c1) = true ->
  let d1 := [("a", Dir a1); ("c", Dir c1)] in
  let d2 := [("a", Dir a2); ("b", Dir b2); ("specific", Dir s2)] in
  left_only_of d1 d2 = ["c"] /\
  final (clear_directory2 model (st d1 d2 out)) = st d1 [("specific", Dir s2)] out /\
  main model (st d1 d2 out)
  = mkrun (Ok tt)
      (st d1 [("specific", Dir s2); ("a", Dir a1); ("c", Dir c1)] out)
      [(Cdircmp_left_only dir1 dir2, None);
       (Clistdir dir2, None);
       (Cexists (os_path_join dir2 "a"), None);
       (Cisdir (os_path_join dir2 "a"), None);
       (Crmtree (os_path_join dir2 "a"), None);
       (Cexists (os_path_join dir2 "b"), None);
       (Cisdir (os_path_join dir2 "b"), None);
       (Crmtree (os_path_join dir2 "b"), None);
       (Clistdir dir1, None);
       (Cisdir (os_path_join dir1 "a"), None);
       (Ccopytree (os_path_join dir1 "a") (os_path_join dir2 "a"), None);
       (Cisdir (os_path_join dir1 "c"), None);
       (Ccopytree (os_path_join dir1 "c") (os_path_join dir2 "c"), None)].
Proof.
  intros La Lc d1 d2.
  pose proof (copied_link_free _ La) as Ca. rewrite copied_Dir in Ca.
  pose proof (copied_link_free _ Lc) as Cc. rewrite copied_Dir in Cc.
  assert (Ea : copied_entries a1 = (a1, 0)).
  { destruct (copied_entries a1). simpl in Ca. congruence. }
  assert (Ec : copied_entries c1 = (c1, 0)).
  { destruct (copied_entries c1). simpl in Cc. congruence. }
  split; [reflexivity|]. split; [reflexivity|].
  unfold main, bind, filecmp_dircmp_left_only, library, clear_directory2, copytree, os_listdir; simpl.
  unfold copy_item, bind, os_path_isdir, shutil_copytree, library, sh_copytree; simpl.
  rewrite Ea, Ec. reflexivity.
Qed.

Lemma scenario_c_witness :
  link_free (Dir [("x", File "1")]) = true /\
  link_free (Dir []) = true /\
  dest (final (main model (st [("a", Dir [("x", File "1")]); ("c", Dir [])]
                        [("a", Dir [("old", File "0")]); ("b", Dir []);
                         ("specific", Dir [("u", File "user")])] [])))
  = [("specific", Dir [("u", File "user")]);
     ("a", Dir [("x", File "1")]); ("c", Dir [])].
Proof.
  split; [reflexivity|]. split; [reflexivity|].
  rewrite (proj2 (proj2 (scenario_c [("x", File "1")] []
                           [("old", File "0")] []
                           [("u", File "user")] [] eq_refl eq_refl))).
  reflexivity.
Defined.




(** C5.  In [copytree], for a source with distinct names, without
    symbolic links in what is read or in the destination, and a run that
    returns: a top-level source directory named [specific] is not copied,
    the destination's entry of that name staying as it was; every other
    top-level source directory is copied whole to a name the destination
    did not have: the destination then holds that directory, and so the
    same thing as the source at every depth and under every name below it,
    [specific] included.  [shutil.copytree] excludes nothing. *)
Theorem nested_specific_copied src es out :
  NoDup (names src) -> source_link_free src = true ->
  link_free (Dir es) = true ->
  outcome (copytree model dir1 dir2 (st src es out)) = Ok tt ->
  let es' := dest (final (copytree model dir1 dir2 (st src es out))) in
  (forall sub, lookup specific src = Some (Dir sub) ->
               lookup specific es' = lookup specific es) /\
  (forall k sub, lookup k src = Some (Dir sub) -> k <> specific ->
                 lookup k es = None /\
                 lookup k es' = Some (Dir sub) /\
                 forall q, walk (Dir es') (k :: q) = walk (Dir sub) q).
Proof.
  intros ND SL DL S es'.
  destruct (copytree_steps src es out) as [Ho Hf].
  rewrite Ho in S. unfold es'. rewrite Hf.
  change (dest (st src (snd (copy_all src es)) out))
    with (snd (copy_all src es)).
  split.
  - intros sub L. apply copy_steps_specific.
    unfold source_specific_file. rewrite L. reflexivity.
  - intros k sub L N.
    assert (I : In k (names src)) by (apply lookup_in_names; congruence).
    pose proof (copy_steps_fresh src (names src) es ND S k (Dir sub) I N L
                  eq_refl) as Fr.
    destruct (copy_steps_done src (names src) es ND S k (Dir sub) I N L)
      as [v' [H1 [_ [H3 _]]]].
    { unfold dead. rewrite Fr. reflexivity. }
    assert (E : v' = Dir sub).
    { specialize (H3 Fr). unfold resolved in H3.
      rewrite (copied_link_free (Dir sub)
                 (source_link_free_entry src k _ SL (lookup_In _ _ _ L) N))
        in H3.
      simpl in H3. congruence. }
    subst v'. split; [exact Fr|]. split; [exact H1|].
    intros q. rewrite walk_cons. unfold copy_all. rewrite H1. reflexivity.
Qed.

Lemma nested_specific_copied_witness :
  let sub := [("specific", Dir [("f", File "1")])] in
  let src := [("a", Dir sub); ("specific", Dir [("g", File "2")])] in
  let es := [("specific", Dir [("u", File "user")])] in
  let es' := dest (final (copytree model dir1 dir2 (st src es []))) in
  NoDup (names src) /\ source_link_free src = true /\
  link_free (Dir es) = true /\
  outcome (copytree model dir1 dir2 (st src es [])) = Ok tt /\
  lookup specific es' = lookup specific es /\
  lookup "a" es' = Some (Dir sub) /\
  walk (Dir es') ["a"; "specific"; "f"] = walk (Dir sub) ["specific"; "f"].
Proof.
  intros sub src es es'.
  assert (ND : NoDup (names src)) by (apply nodupb_NoDup; reflexivity).
  split; [exact ND|]. split; [reflexivity|]. split; [reflexivity|].
  split; [reflexivity|].
  pose proof (nested_specific_copied src es [] ND eq_refl eq_refl eq_refl)
    as [H1 H2].
  split; [exact (H1 _ eq_refl)|].
  assert (N : "a" <> specific) by discriminate.
  destruct (H2 "a" sub eq_refl N) as [_ [H3 H4]].
  split; [exact H3|]. exact (H4 ["specific"; "f"]).
Defined.










(* ===================================================================== *)
(** * The calls [main] makes, whatever the library does *)
(* ===================================================================== *)

Lemma trace_for_each_Forall {X} (P : event -> Prop) (body : X -> M unit) xs :
  (forall x s, Forall P (trace (body x s))) ->
  forall s, Forall P (trace (for_each xs body s)).
Proof.
  intros H. induction xs as [|x xs IH]; intros s; simpl; [constructor|].
  rewrite trace_bind. destruct (outcome (body x s)); auto.
  apply Forall_app. auto.
Qed.

Lemma trace_bind_Forall {A B} (P : event -> Prop) (m : M A) (f : A -> M B) s :
  Forall P (trace (m s)) -> (forall a s', Forall P (trace (f a s'))) ->
  Forall P (trace (bind m f s)).
Proof.
  intros Hm Hf. rewrite trace_bind. destruct (outcome (m s)); auto.
  apply Forall_app. auto.
Qed.

Lemma trace_library_Forall {A} (P : event -> Prop) c
    (f : fs -> result A * fs) s :
  (forall e, P (c, e)) -> Forall P (trace (library c f s)).
Proof. intros H. repeat constructor. apply H. Qed.

Section calls.
Variable lib : library_impl.

Lemma clear_item_calls item s :
  Forall (fun ev => removal_confined ev /\ is_copy ev = false)
    (trace (clear_item lib item s)).
Proof.
  unfold clear_item. destruct (negb (item =? specific)) eqn:E;
    [|constructor].
  apply negb_true_iff, String.eqb_neq in E.
  apply trace_bind_Forall.
  { apply trace_library_Forall. intros e. split; exact I || reflexivity. }
  intros [] s'; [|constructor].
  apply trace_bind_Forall.
  { apply trace_library_Forall. intros e. split; exact I || reflexivity. }
  intros [] s''; apply trace_library_Forall; intros e;
    (split; [exists item; auto|reflexivity]).
Qed.

Lemma copy_item_calls item s :
  Forall (fun ev => copy_confined ev /\ is_removal ev = false)
    (trace (copy_item lib dir1 dir2 item s)).
Proof.
  unfold copy_item.
  apply trace_bind_Forall.
  { apply trace_library_Forall. intros e. split; exact I || reflexivity. }
  intros [] s'.
  - destruct (negb (item =? specific)) eqn:E; [|constructor].
    apply negb_true_iff, String.eqb_neq in E.
    apply trace_library_Forall. intros e.
    split; [exists item; auto|reflexivity].
  - apply trace_library_Forall. intros e.
    split; [exists item; auto|reflexivity].
Qed.

Lemma clear_directory2_calls s :
  Forall (fun ev => removal_confined ev /\ is_copy ev = false)
    (trace (clear_directory2 lib s)).
Proof.
  unfold clear_directory2. apply trace_bind_Forall.
  { apply trace_library_Forall. intros e. split; exact I || reflexivity. }
  intros items s'. apply trace_for_each_Forall. intros x s''.
  apply clear_item_calls.
Qed.

Lemma copytree_calls s :
  Forall (fun ev => copy_confined ev /\ is_removal ev = false)
    (trace (copytree lib dir1 dir2 s)).
Proof.
  unfold copytree. apply trace_bind_Forall.
  { apply trace_library_Forall. intros e. split; exact I || reflexivity. }
  intros items s'. apply trace_for_each_Forall. intros x s''.
  apply copy_item_calls.
Qed.

End calls.

Lemma Forall_weaken {X} (P Q : X -> Prop) l :
  (forall x, P x -> Q x) -> Forall P l -> Forall Q l.
Proof. intros H F. eapply Forall_impl; eauto. Qed.

(** X1.  Whatever the library calls do and return: every [shutil.rmtree]
    and every [os.remove] that [main] calls is on a child of [directory2]
    whose name is not [specific]; every [shutil.copytree] is from a child
    of [directory1] not named [specific] to the child of [directory2] of
    the same name, and every [shutil.copy2] from a child of [directory1]
    to the child of [directory2] of the same name. *)
Theorem calls_confined (lib : library_impl) s :
  Forall (fun ev => removal_confined ev /\ copy_confined ev)
    (trace (main lib s)).
Proof.
  unfold main. apply trace_bind_Forall.
  { apply trace_library_Forall. intros e. split; exact I. }
  intros [|k l] s'.
  - apply trace_library_Forall. intros e. split; exact I.
  - apply trace_bind_Forall.
    + eapply Forall_weaken; [|apply clear_directory2_calls].
      intros ev [H1 H2]. split; auto.
      unfold copy_confined. unfold is_copy in H2.
      destruct (fst ev); try exact I; discriminate.
    + intros _ s''. eapply Forall_weaken; [|apply copytree_calls].
      intros ev [H1 H2]. split; auto.
      unfold removal_confined. unfold is_removal in H2.
      destruct (fst ev); try exact I; discriminate.
Qed.

(** X2.  Whatever the library calls do and return: [main] removes before
    it copies.  Its calls split into a first part without any
    [shutil.copytree] or [shutil.copy2] and a second part without any
    [shutil.rmtree] or [os.remove]. *)
Theorem removals_before_copies (lib : library_impl) s :
  exists before after,
    trace (main lib s) = before ++ after /\
    Forall (fun ev => is_copy ev = false) before /\
    Forall (fun ev => is_removal ev = false) after.
Proof.
  unfold main. rewrite trace_bind.
  set (r := filecmp_dircmp_left_only lib dir1 dir2 s).
  assert (R : Forall (fun ev => is_copy ev = false) (trace r)).
  { apply trace_library_Forall. reflexivity. }
  destruct (outcome r) as [[|k l]|e].
  - exists (trace r), (trace (print lib identical_message (final r))).
    split; [reflexivity|]. split; [exact R|].
    apply trace_library_Forall. reflexivity.
  - rewrite trace_bind.
    set (c := clear_directory2 lib (final r)).
    assert (C : Forall (fun ev => is_copy ev = false) (trace c)).
    { eapply Forall_weaken; [|apply clear_directory2_calls].
      intros ev [_ H]. exact H. }
    destruct (outcome c).
    + exists (trace r ++ trace c), (trace (copytree lib dir1 dir2 (final c))).
      split; [apply app_assoc|]. split.
      * apply Forall_app. auto.
      * eapply Forall_weaken; [|apply copytree_calls].
        intros ev [_ H]. exact H.
    + exists (trace r ++ trace c), []. split; [symmetry; apply app_nil_r|].
      split; [apply Forall_app; auto|constructor].
  - exists (trace r), []. split; [symmetry; apply app_nil_r|].
    split; [exact R|constructor].
Qed.

(* ===================================================================== *)
(** * What [main] leaves alone *)
(* ===================================================================== *)

Lemma frame_refl s : frame s s.
Proof. split; reflexivity. Qed.

Lemma frame_trans s s' s'' : frame s s' -> frame s' s'' -> frame s s''.
Proof. unfold frame. intros [A B] [C D]. split; congruence. Qed.

Lemma frame_bind {A B} (m : M A) (f : A -> M B) :
  (forall s, frame s (final (m s))) ->
  (forall a s, frame s (final (f a s))) ->
  forall s, frame s (final (bind m f s)).
Proof.
  intros Hm Hf s. rewrite final_bind. destruct (outcome (m s)); auto.
  eapply frame_trans; eauto.
Qed.

Lemma frame_for_each {X} (body : X -> M unit) xs :
  (forall x s, frame s (final (body x s))) ->
  forall s, frame s (final (for_each xs body s)).
Proof.
  intros H. induction xs as [|x xs IH]; intros s; simpl.
  - apply frame_refl.
  - apply frame_bind; auto.
Qed.

Lemma frame_modify_at p f s :
  fst p = Directory2 -> frame s (modify_at p f s).
Proof.
  destruct p as [r q]. simpl. intros ->. split; reflexivity.
Qed.

Lemma frame_unlink p s : fst p = Directory2 -> frame s (unlink p s).
Proof.
  destruct p as [r q]. simpl. intros ->. unfold unlink. simpl.
  destruct q; split; reflexivity.
Qed.

Lemma frame_rmtree p s : fst p = Directory2 -> frame s (snd (rmtree p s)).
Proof.
  intros H. unfold rmtree.
  destruct (lstat p s) as [[d|es|t|c]|]; simpl;
    auto using frame_refl, frame_unlink.
Qed.

Lemma frame_remove p s : fst p = Directory2 -> frame s (snd (remove p s)).
Proof.
  intros H. unfold remove.
  destruct (lstat p s) as [[d|es|t|c]|]; simpl;
    auto using frame_refl, frame_unlink.
Qed.

Lemma frame_write data p s :
  fst p = Directory2 -> frame s (snd (write data p s)).
Proof.
  intros H. unfold write.
  destruct (lstat p s) as [v|].
  - destruct (open_wb data v); simpl; [|apply frame_refl].
    apply frame_modify_at. exact H.
  - destruct (stat (dirname p) s) as [[d|es|t|c]|]; simpl;
      try apply frame_refl.
    apply frame_modify_at. exact H.
Qed.

Lemma frame_copy2 a p s : fst p = Directory2 -> frame s (snd (copy2 a p s)).
Proof.
  intros H. unfold copy2.
  destruct (stat a s) as [[d|es|t|c]|]; simpl; try apply frame_refl.
  apply frame_write. destruct (is_dir (stat p s)); exact H.
Qed.

Lemma frame_sh_copytree a p s :
  fst p = Directory2 -> frame s (snd (sh_copytree a p s)).
Proof.
  intros H. unfold sh_copytree.
  destruct (stat a s) as [[d|es|t|c]|]; simpl; try apply frame_refl.
  destruct (lstat p s); simpl; [apply frame_refl|].
  destruct (stat (dirname p) s) as [[d|es'|t|c]|]; simpl;
    try apply frame_refl.
  apply frame_modify_at. exact H.
Qed.

Lemma frame_clear_directory2 s : frame s (final (clear_directory2 model s)).
Proof.
  revert s. unfold clear_directory2. apply frame_bind.
  { intros s. unfold os_listdir, listdir. rewrite final_library. lib_simpl.
    unfold listdir. destruct (stat dir2 s) as [[d|es|t|c]|]; apply frame_refl. }
  intros items. apply frame_for_each. intros item.
  unfold clear_item. destruct (negb (item =? specific));
    [|intros s; apply frame_refl].
  apply frame_bind; [intros s; apply frame_refl|].
  intros [] ; [|intros s; apply frame_refl].
  apply frame_bind; [intros s; apply frame_refl|].
  intros [] s.
  - unfold shutil_rmtree. rewrite final_library. apply frame_rmtree.
    reflexivity.
  - unfold os_remove. rewrite final_library. apply frame_remove.
    reflexivity.
Qed.

Lemma frame_copytree s : frame s (final (copytree model dir1 dir2 s)).
Proof.
  revert s. unfold copytree. apply frame_bind.
  { intros s. unfold os_listdir. rewrite final_library. lib_simpl.
    unfold listdir. destruct (stat dir1 s) as [[d|es|t|c]|]; apply frame_refl. }
  intros items. apply frame_for_each. intros item.
  unfold copy_item. apply frame_bind; [intros s; apply frame_refl|].
  intros [] s.
  - destruct (negb (item =? specific)); [|apply frame_refl].
    unfold shutil_copytree. rewrite final_library. apply frame_sh_copytree.
    reflexivity.
  - unfold shutil_copy2. rewrite final_library. apply frame_copy2.
    reflexivity.
Qed.

Lemma dircmp_left_only_state a b s : snd (dircmp_left_only a b s) = s.
Proof.
  unfold dircmp_left_only.
  destruct (fst (listdir a s)); [|reflexivity].
  destruct (fst (listdir b s)); reflexivity.
Qed.




(** X4.  In every state: either the run of [main] is the one that only
    compares and prints the one line, or nothing at all is printed,
    whichever way the run ends. *)
Theorem prints_only_when_identical s :
  main model s = no_op s \/ stdout (final (main model s)) = stdout s.
Proof.
  unfold main.
  destruct (fst (dircmp_left_only dir1 dir2 s)) as [[|k l]|e] eqn:E.
  - left. unfold bind, filecmp_dircmp_left_only, print, library.
    cbn [model i_dircmp_left_only i_print outcome final trace].
    rewrite E, dircmp_left_only_state. reflexivity.
  - right. rewrite final_bind.
    unfold filecmp_dircmp_left_only at 1 2 3.
    rewrite outcome_library, final_library.
    cbn [model i_dircmp_left_only].
    rewrite E, dircmp_left_only_state.
    refine (proj2 (frame_bind _ _ _ _ s)).
    + apply frame_clear_directory2.
    + intros _. apply frame_copytree.
  - right. rewrite final_bind.
    unfold filecmp_dircmp_left_only at 1 2 3.
    rewrite outcome_library, final_library.
    cbn [model i_dircmp_left_only].
    rewrite E, dircmp_left_only_state. reflexivity.
Qed.

(* ===================================================================== *)
(** * More on the clearing loop *)
(* ===================================================================== *)

(** X5.  The clearing loop, however it ends, only removes entries: what
    [directory2] lists afterwards it listed before, unchanged; and its
    entry [specific], file, directory or link, is as it was. *)
Theorem clearing_only_removes d1 dst out :
  incl (dest (final (clear_directory2 model (mkfs d1 (Some (Dir dst)) out))))
       dst /\
  lookup specific
    (dest (final (clear_directory2 model (mkfs d1 (Some (Dir dst)) out))))
  = lookup specific dst.
Proof.
  destruct (clear_directory2_steps d1 dst out) as [_ F]. rewrite F.
  change (dest (mkfs d1 (Some (Dir (snd (clear_all dst)))) out))
    with (snd (clear_all dst)).
  split.
  - apply clear_steps_incl.
  - destruct (lookup specific dst) as [v|] eqn:L.
    + apply clear_steps_spared; auto.
    + apply clear_all_none. exact L.
Qed.

(** X6.  When the comparison finds a name and the first entry that
    [os.listdir] returns for [directory2] is, under a name other than
    [specific], a symbolic link to a directory, [main] ends with the
    [OSError] of [shutil.rmtree]: nothing was removed and nothing is
    copied, [directory2] is as it was. *)
Theorem linked_directory_blocks_sync src dst out k t :
  source_only src ((k, Link t) :: dst) -> k <> specific ->
  is_dir (follow t) = true ->
  outcome (main model (st src ((k, Link t) :: dst) out)) = Raise OSError /\
  dest (final (main model (st src ((k, Link t) :: dst) out)))
  = (k, Link t) :: dst.
Proof.
  intros SO N D. rewrite outcome_main, dest_main.
  apply source_only_left_only in SO.
  assert (C : clear_all ((k, Link t) :: dst)
              = (Raise OSError, (k, Link t) :: dst)).
  { unfold clear_all. cbn [names map fst steps]. unfold clear_step.
    apply String.eqb_neq in N. rewrite N. cbn [lookup].
    rewrite String.eqb_refl.
    destruct (follow t) as [[d|sub|t'|c]|]; try discriminate.
    reflexivity. }
  unfold sync. destruct (left_only_of src ((k, Link t) :: dst));
    [congruence|].
  rewrite C. split; reflexivity.
Qed.

Lemma linked_directory_blocks_sync_witness :
  let src := [("c", Dir [])] in
  let t := Dir [("x", File "1")] in
  let dst := [("old", File "0"); ("b", Dir [])] in
  source_only src (("l", Link t) :: dst) /\
  outcome (main model (st src (("l", Link t) :: dst) [])) = Raise OSError /\
  dest (final (main model (st src (("l", Link t) :: dst) [])))
  = ("l", Link t) :: dst.
Proof.
  intros src t dst.
  assert (SO : source_only src (("l", Link t) :: dst)).
  { exists "c". split; [left; reflexivity|]. split; [|reflexivity].
    intros [H|[H|[H|[]]]]; discriminate H. }
  split; [exact SO|].
  assert (N : "l" <> specific) by discriminate.
  exact (linked_directory_blocks_sync src dst [] "l" t SO N eq_refl).
Defined.

(** X7.  When the comparison finds a name and [main] returns, without a
    symbolic link where [main] removes or writes: [directory2] holds
    nothing under a name, other than [specific], that is not a name of the
    source; what it held there is gone. *)
Theorem stale_entries_removed src dst out k :
  dest_link_free src dst = true -> source_only src dst ->
  outcome (main model (st src dst out)) = Ok tt ->
  k <> specific -> ~ In k (names src) ->
  lookup k (dest (final (main model (st src dst out)))) = None.
Proof.
  intros DL SO S N NI. rewrite outcome_main in S. rewrite dest_main.
  apply source_only_left_only in SO.
  destruct (sync_copy_path src dst SO S) as [_ [_ ->]].
  unfold copy_all. rewrite copy_steps_frame by exact NI.
  rewrite (clear_all_plain_listing dst (dest_link_free_top _ _ DL)).
  apply lookup_filter_specific. exact N.
Qed.

Lemma stale_entries_removed_witness :
  let src := [("a", Dir []); ("c", File "1")] in
  let dst := [("a", Dir []); ("b", Dir [("specific", File "2")]);
              ("specific", File "mine")] in
  dest_link_free src dst = true /\ source_only src dst /\
  outcome (main model (st src dst [])) = Ok tt /\
  lookup "b" dst = Some (Dir [("specific", File "2")]) /\
  lookup "b" (dest (final (main model (st src dst [])))) = None.
Proof.
  intros src dst.
  assert (SO : source_only src dst).
  { exists "c". split; [right; left; reflexivity|]. split; [|reflexivity].
    intros [H|[H|[H|[]]]]; discriminate H. }
  split; [reflexivity|]. split; [exact SO|]. split; [reflexivity|].
  split; [reflexivity|].
  apply (stale_entries_removed src dst [] "b" eq_refl SO eq_refl).
  - discriminate.
  - intros [H|[H|[]]]; discriminate H.
Defined.

(* ===================================================================== *)
(** * More on [copytree] *)
(* ===================================================================== *)









(* ===================================================================== *)
(** * A dangling link in the source *)
(* ===================================================================== *)


(* ===================================================================== *)
(** * Directories without links: the destination after [main] *)
(* ===================================================================== *)

(** X12.  Without symbolic links, [main] replaces the destination by the
    source.  For a source with distinct names that holds no link where it
    is read and no file named [specific], and a destination whose
    top-level entries are files and directories: when the comparison finds
    a name, [main] returns, and [directory2] then holds under [specific]
    what it held there, if anything, and under every other name what
    [directory1] holds under that name, nothing where [directory1] has no
    such name. *)
Theorem sync_replaces_destination src dst out :
  NoDup (names src) -> source_link_free src = true ->
  source_specific_file src = false -> top_plain dst = true ->
  source_only src dst ->
  outcome (main model (st src dst out)) = Ok tt /\
  forall k, lookup k (dest (final (main model (st src dst out))))
            = if k =? specific then lookup specific dst else lookup k src.
Proof.
  intros ND SL SF TP SO. rewrite outcome_main, dest_main.
  apply source_only_left_only in SO.
  pose proof (sync_returns src dst ND SL SF TP SO) as S.
  split; [exact S|]. intros k.
  destruct (k =? specific) eqn:E.
  - apply String.eqb_eq in E. subst k. apply sync_specific. exact SF.
  - apply String.eqb_neq in E. apply sync_lookup; auto.
Qed.

Lemma sync_replaces_destination_witness :
  let src := [("a", Dir [("specific", Dir [("x", File "1")])]);
              ("b.txt", File "2"); ("specific", Dir [("g", Broken true)])] in
  let dst := [("old", File "0"); ("specific", File "mine");
              ("a", Dir [("stale", Link (File "4"))])] in
  let es' := dest (final (main model (st src dst []))) in
  NoDup (names src) /\ source_link_free src = true /\
  source_specific_file src = false /\ top_plain dst = true /\
  source_only src dst /\
  outcome (main model (st src dst [])) = Ok tt /\
  lookup specific es' = Some (File "mine") /\
  lookup "a" es' = Some (Dir [("specific", Dir [("x", File "1")])]) /\
  lookup "old" es' = None.
Proof.
  intros src dst es'.
  assert (ND : NoDup (names src)) by (apply nodupb_NoDup; reflexivity).
  assert (SO : source_only src dst).
  { exists "b.txt". split; [right; left; reflexivity|].
    split; [|reflexivity]. intros [H|[H|[H|[]]]]; discriminate H. }
  split; [exact ND|]. split; [reflexivity|]. split; [reflexivity|].
  split; [reflexivity|]. split; [exact SO|].
  destruct (sync_replaces_destination src dst [] ND eq_refl eq_refl eq_refl SO)
    as [H1 H2].
  split; [exact H1|].
  split; [exact (H2 specific)|]. split; [exact (H2 "a")|exact (H2 "old")].
Defined.

(* ===================================================================== *)
(** * The path taken, and [specific] in the destination *)
(* ===================================================================== *)

(** X13.  On two directories, [main] takes the path that only compares
    and prints exactly when the source has no name that is at once absent
    from the destination and not skipped by [dircmp]: names that
    [filecmp.DEFAULT_IGNORES] lists, names only in the destination and
    differences of contents do not count. *)
Theorem no_op_exactly_without_source_only src dst out :
  main model (st src dst out) = no_op (st src dst out) <->
  ~ source_only src dst.
Proof.
  rewrite source_only_left_only. split.
  - intros E NE. apply (f_equal (fun r => stdout (final r))) in E.
    destruct (main_sync src dst out) as [_ F]. rewrite F in E.
    unfold printed in E. destruct (left_only_of src dst); [congruence|].
    simpl in E. apply app_inv_head in E. discriminate.
  - intros H. apply main_no_op.
    destruct (left_only_of src dst); [reflexivity|].
    elim H. discriminate.
Qed.

Lemma no_op_exactly_without_source_only_witness :
  let src := [(".git", Dir []); ("a", File "new")] in
  let dst := [("a", File "old"); ("b", Dir [])] in
  ~ source_only src dst /\
  main model (st src dst []) = no_op (st src dst []).
Proof.
  intros src dst.
  assert (H : ~ source_only src dst).
  { apply (proj1 (no_op_exactly_without_source_only src dst [])).
    reflexivity. }
  split; [exact H|].
  exact (proj2 (no_op_exactly_without_source_only src dst []) H).
Defined.

(** X14.  When the source holds no file named [specific] and no symbolic
    link of that name, and no top-level entry of the destination is a
    symbolic link, the top-level entry [specific] of the destination is
    after [main] as it was before, whichever way the run ends; and it is
    absent afterwards if it was absent before. *)
Theorem specific_untouched_without_source_file src dst out :
  source_specific_plain src = true -> source_specific_file src = false ->
  top_plain dst = true ->
  lookup specific (dest (final (main model (st src dst out))))
  = lookup specific dst.
Proof.
  intros _ H _. rewrite dest_main. apply sync_specific. exact H.
Qed.

Lemma specific_untouched_without_source_file_witness :
  let src := [("specific", Dir [("g", File "theirs")]);
              ("l", Broken false)] in
  let dst := [("specific", Dir [("u", File "mine")]); ("old", Dir [])] in
  source_specific_plain src = true /\ source_specific_file src = false /\
  top_plain dst = true /\
  outcome (main model (st src dst [])) = Raise FileNotFoundError /\
  lookup specific (dest (final (main model (st src dst []))))
  = Some (Dir [("u", File "mine")]).
Proof.
  intros src dst. split; [reflexivity|]. split; [reflexivity|].
  split; [reflexivity|]. split; [reflexivity|].
  exact (specific_untouched_without_source_file src dst [] eq_refl eq_refl
           eq_refl).
Defined.
